(** * Mükemmel Şut: the penalty mini-game of [src/src/App.tsx]

    A shallow embedding of the [App] component: its hooks ([useState],
    [useRef]), its handlers and the browser timers they create, followed
    by the properties of the game loop.

    Modelling conventions.
    - JS numbers: [power], [score] and [attempts] only ever hold integers
      (0, [prev + 2], [prev + 1], 100), so they are [Z]; the ball
      coordinates are built from [Math.random()] and are exact rationals
      [Q] (the IEEE rounding of the products is not modelled).
    - A handler is a closure created by one render: what it READS
      ([gameState], [power], [goalkeeperPosition]) is the state of that
      render, passed as [props]; what it WRITES goes through the setters
      into the pending state of the world.  Functional updates
      ([setPower(prev => ...)]) read the pending state.
    - [setInterval]/[setTimeout] are a table of pending timers in the
      world; a timer can fire only while it is in the table.  The
      scheduler is not modelled: any pending timer may fire next, which
      covers every real schedule.
    - One turn of the event loop is atomic: a handler runs against the
      latest render, the component renders, and the auto-shoot effect of
      that render runs before the next event.  Running the effect after
      every turn agrees with [useEffect]'s dependency list: when
      [power] and [gameState] have not changed the effect found nothing
      to do the last time either.
    - A mouseup that arrives between an update and the next render is
      taken by the listener of the render before; [releaseFrom] is that
      release, and the properties that tie an outcome to the number of
      ticks are stated for it.
    - [Math.random()] reads the next value of an injected source. *)

From Stdlib Require Import ZArith QArith Qround Lqa List Bool String Lia.
Import ListNotations.
Open Scope Z_scope.

(** ** Data *)

(** [type GameState = 'waiting' | 'charging' | 'shooting' | 'result'] *)
Inductive GameState : Type := waiting | charging | shooting | result.

(** [type ShotResult = 'goal' | 'save' | 'miss' | null] *)
Inductive ShotResult : Type := goal | save | miss | null.

Definition GameState_eqb (a b : GameState) : bool :=
  match a, b with
  | waiting, waiting | charging, charging
  | shooting, shooting | result, result => true
  | _, _ => false
  end.

Definition ShotResult_eqb (a b : ShotResult) : bool :=
  match a, b with
  | goal, goal | save, save | miss, miss | null, null => true
  | _, _ => false
  end.

(** The ball, [{ x: number, y: number }]. *)
Record BallPosition : Type := { x : Q; y : Q }.

(** The goalkeeper position is a plain string in the source
    ([useState('center')]); [None] is the [undefined] that an array read
    out of range yields. *)
Definition JsString : Type := option string.

Definition str_eqb (a : JsString) (lit : string) : bool :=
  match a with
  | Some s => String.eqb s lit
  | None => false
  end.

(** The eight [useState] cells of [App], as one render sees them. *)
Record Render : Type := {
  gameState : GameState;
  power : Z;
  score : Z;
  attempts : Z;
  shotResult : ShotResult;
  goalkeeperPosition : JsString;
  ballPosition : BallPosition;
  showResult : bool
}.

(** The three closures handed to [setInterval] and [setTimeout]. *)
Inductive TimerHandler : Type :=
| chargeTick    (* setInterval(() => setPower(prev => ...), 50) *)
| showOverlay   (* setTimeout(() => { setShowResult(true); ... }, 1000) *)
| roundReset.   (* setTimeout(() => { resetGame(); }, 2000) *)

Record Timer : Type := {
  timerId : nat;
  handler : TimerHandler;
  delay : Z;          (* milliseconds *)
  repeats : bool      (* true for setInterval, false for setTimeout *)
}.

(** Everything the component can touch: the pending hook state, the
    [powerIntervalRef] ref, the browser's timer table and id counter,
    and the random source with the number of values drawn so far. *)
Record World : Type := {
  react : Render;
  powerIntervalRef : option nat;
  timers : list Timer;
  nextTimerId : nat;
  entropy : nat -> Q;
  drawn : nat
}.

(** ** A small state monad over the world *)

Definition M (A : Type) : Type := World -> A * World.

Definition ret {A : Type} (a : A) : M A := fun w => (a, w).

Definition bind {A B : Type} (c : M A) (k : A -> M B) : M B :=
  fun w => let (a, w') := c w in k a w'.

Definition exec {A : Type} (c : M A) (w : World) : World := snd (c w).

Declare Scope js_scope.
Delimit Scope js_scope with js.
Notation "v <- c ;; k" := (bind c (fun v => k))
  (at level 100, c at next level, right associativity) : js_scope.
Notation "c ;; k" := (bind c (fun _ => k))
  (at level 100, right associativity) : js_scope.
Open Scope js_scope.

Definition modifyReact (f : Render -> Render) : M unit :=
  fun w => (tt, {| react := f (react w);
                   powerIntervalRef := powerIntervalRef w;
                   timers := timers w;
                   nextTimerId := nextTimerId w;
                   entropy := entropy w;
                   drawn := drawn w |}).

(** *** The setters returned by [useState] *)

Definition setGameState (v : GameState) : M unit :=
  modifyReact (fun r =>
    {| gameState := v; power := power r; score := score r;
       attempts := attempts r; shotResult := shotResult r;
       goalkeeperPosition := goalkeeperPosition r;
       ballPosition := ballPosition r; showResult := showResult r |}).

(** [setPower(prev => f(prev))] *)
Definition setPowerFn (f : Z -> Z) : M unit :=
  modifyReact (fun r =>
    {| gameState := gameState r; power := f (power r); score := score r;
       attempts := attempts r; shotResult := shotResult r;
       goalkeeperPosition := goalkeeperPosition r;
       ballPosition := ballPosition r; showResult := showResult r |}).

Definition setPower (v : Z) : M unit := setPowerFn (fun _ => v).

(** [setScore(prev => f(prev))] *)
Definition setScoreFn (f : Z -> Z) : M unit :=
  modifyReact (fun r =>
    {| gameState := gameState r; power := power r; score := f (score r);
       attempts := attempts r; shotResult := shotResult r;
       goalkeeperPosition := goalkeeperPosition r;
       ballPosition := ballPosition r; showResult := showResult r |}).

Definition setScore (v : Z) : M unit := setScoreFn (fun _ => v).

(** [setAttempts(prev => f(prev))] *)
Definition setAttemptsFn (f : Z -> Z) : M unit :=
  modifyReact (fun r =>
    {| gameState := gameState r; power := power r; score := score r;
       attempts := f (attempts r); shotResult := shotResult r;
       goalkeeperPosition := goalkeeperPosition r;
       ballPosition := ballPosition r; showResult := showResult r |}).

Definition setAttempts (v : Z) : M unit := setAttemptsFn (fun _ => v).

Definition setShotResult (v : ShotResult) : M unit :=
  modifyReact (fun r =>
    {| gameState := gameState r; power := power r; score := score r;
       attempts := attempts r; shotResult := v;
       goalkeeperPosition := goalkeeperPosition r;
       ballPosition := ballPosition r; showResult := showResult r |}).

Definition setGoalkeeperPosition (v : JsString) : M unit :=
  modifyReact (fun r =>
    {| gameState := gameState r; power := power r; score := score r;
       attempts := attempts r; shotResult := shotResult r;
       goalkeeperPosition := v;
       ballPosition := ballPosition r; showResult := showResult r |}).

Definition setBallPosition (v : BallPosition) : M unit :=
  modifyReact (fun r =>
    {| gameState := gameState r; power := power r; score := score r;
       attempts := attempts r; shotResult := shotResult r;
       goalkeeperPosition := goalkeeperPosition r;
       ballPosition := v; showResult := showResult r |}).

Definition setShowResult (v : bool) : M unit :=
  modifyReact (fun r =>
    {| gameState := gameState r; power := power r; score := score r;
       attempts := attempts r; shotResult := shotResult r;
       goalkeeperPosition := goalkeeperPosition r;
       ballPosition := ballPosition r; showResult := v |}).

(** *** The ref, the timers and the random source *)

Definition readPowerIntervalRef : M (option nat) :=
  fun w => (powerIntervalRef w, w).

Definition writePowerIntervalRef (v : option nat) : M unit :=
  fun w => (tt, {| react := react w;
                   powerIntervalRef := v;
                   timers := timers w;
                   nextTimerId := nextTimerId w;
                   entropy := entropy w;
                   drawn := drawn w |}).

(** Both [setInterval] and [setTimeout] take the next id of the one
    counter they share and append the timer to the table. *)
Definition addTimer (h : TimerHandler) (ms : Z) (rep : bool) : M nat :=
  fun w =>
    let id := nextTimerId w in
    (id, {| react := react w;
            powerIntervalRef := powerIntervalRef w;
            timers := timers w ++ [{| timerId := id; handler := h;
                                      delay := ms; repeats := rep |}];
            nextTimerId := S id;
            entropy := entropy w;
            drawn := drawn w |}).

Definition setInterval (h : TimerHandler) (ms : Z) : M nat :=
  addTimer h ms true.

Definition setTimeout (h : TimerHandler) (ms : Z) : M nat :=
  addTimer h ms false.

(** [clearInterval(id)]: the timer with that id leaves the table; an id
    that is not pending is ignored. *)
Definition clearInterval (id : nat) : M unit :=
  fun w => (tt, {| react := react w;
                   powerIntervalRef := powerIntervalRef w;
                   timers := filter (fun t => negb (Nat.eqb (timerId t) id))
                                    (timers w);
                   nextTimerId := nextTimerId w;
                   entropy := entropy w;
                   drawn := drawn w |}).

(** [Math.random()] *)
Definition Math_random : M Q :=
  fun w => (entropy w (drawn w),
            {| react := react w;
               powerIntervalRef := powerIntervalRef w;
               timers := timers w;
               nextTimerId := nextTimerId w;
               entropy := entropy w;
               drawn := S (drawn w) |}).

(** ** The component *)

(** Perfect zone boundaries (70-85%) *)
Definition perfectZoneStart : Z := 70.
Definition perfectZoneEnd : Z := 85.

(** The state of the first render: the initial values of the hooks. *)
Definition initialRender : Render :=
  {| gameState := waiting; power := 0; score := 0; attempts := 0;
     shotResult := null; goalkeeperPosition := Some "center"%string;
     ballPosition := {| x := 50; y := 85 |}%Q; showResult := false |}.

(** Browsers number timers from 1, so a timer id is never falsy. *)
Definition initialWorld (rnd : nat -> Q) : World :=
  {| react := initialRender; powerIntervalRef := None; timers := [];
     nextTimerId := 1; entropy := rnd; drawn := 0 |}.

Definition calculateShotOutcome (shotPower : Z) : ShotResult :=
  if (shotPower >=? perfectZoneStart) && (shotPower <=? perfectZoneEnd) then
    goal
  else if shotPower <? perfectZoneStart then
    save  (* Weak shot, goalkeeper saves *)
  else
    miss. (* Too powerful, ball goes over *)

(** The callback of the charging interval:
    [prev => { if (prev >= 100) return 100; return prev + 2; }] *)
Definition chargeStep (prev : Z) : Z :=
  if prev >=? 100 then 100 else prev + 2.

Definition positions : list string := ["left"; "center"; "right"]%string.

(** [a[i]] for an integral index: [undefined] out of range. *)
Definition arrayGet (a : list string) (i : Z) : JsString :=
  if i <? 0 then None else nth_error a (Z.to_nat i).

Definition animateGoalkeeper : M unit :=
  r <- Math_random ;;
  let randomPosition :=
    arrayGet positions
             (Qfloor (r * inject_Z (Z.of_nat (List.length positions)))%Q) in
  setGoalkeeperPosition randomPosition.

(** [animateBall] belongs to the render that created the handler calling
    it: [goalkeeperPosition] is the value that render saw. *)
Definition animateBall (props : Render) (res : ShotResult) (shotPower : Z)
  : M unit :=
  if ShotResult_eqb res goal then
    (* Ball goes to goal *)
    r <- Math_random ;;
    setBallPosition {| x := 50 + (r - (1#2)) * 30; y := 40 |}%Q
  else if ShotResult_eqb res save then
    (* Ball goes toward goalkeeper *)
    let gkX : Q :=
      (if str_eqb (goalkeeperPosition props) "left" then 25
       else if str_eqb (goalkeeperPosition props) "right" then 75
       else 50)%Q in
    r <- Math_random ;;
    setBallPosition {| x := gkX + (r - (1#2)) * 10; y := 45 |}%Q
  else
    (* Ball goes over the goal *)
    r <- Math_random ;;
    setBallPosition {| x := 50 + (r - (1#2)) * 40; y := 10 |}%Q.

Definition resetGame : M unit :=
  setGameState waiting ;;
  setPower 0 ;;
  setShotResult null ;;
  setShowResult false ;;
  setBallPosition {| x := 50; y := 85 |}%Q ;;
  setGoalkeeperPosition (Some "center"%string).

Definition resetScore : M unit :=
  setScore 0 ;;
  setAttempts 0 ;;
  resetGame.

Definition handleTouchStart (props : Render) : M unit :=
  if negb (GameState_eqb (gameState props) waiting) then ret tt else
  setGameState charging ;;
  setPower 0 ;;
  setShotResult null ;;
  setShowResult false ;;
  (* Start power charging *)
  id <- setInterval chargeTick 50 ;;
  writePowerIntervalRef (Some id).

Definition handleTouchEnd (props : Render) : M unit :=
  if negb (GameState_eqb (gameState props) charging) then ret tt else
  current <- readPowerIntervalRef ;;
  match current with
  | Some (S _ as id) => clearInterval id
  | Some O | None => ret tt
  end ;;
  setGameState shooting ;;
  (* Calculate shot outcome *)
  let res := calculateShotOutcome (power props) in
  setShotResult res ;;
  (* Animate goalkeeper *)
  animateGoalkeeper ;;
  (* Animate ball *)
  animateBall props res (power props) ;;
  (* Update score and attempts *)
  setAttemptsFn (fun prev => prev + 1) ;;
  (if ShotResult_eqb res goal then setScoreFn (fun prev => prev + 1)
   else ret tt) ;;
  (* Show result after animation *)
  _ <- setTimeout showOverlay 1000 ;;
  ret tt.

(** Auto-shoot when power reaches 100%: the effect of the render [props],
    run after that render. *)
Definition autoShoot (props : Render) : M unit :=
  if (power props >=? 100) && GameState_eqb (gameState props) charging then
    handleTouchEnd props
  else ret tt.

(** The bodies of the three timer closures. *)
Definition runTimer (h : TimerHandler) : M unit :=
  match h with
  | chargeTick => setPowerFn chargeStep
  | showOverlay =>
      setShowResult true ;;
      _ <- setTimeout roundReset 2000 ;;
      ret tt
  | roundReset => resetGame
  end.

(** The browser fires the pending timer [id]: a timeout leaves the table
    before its callback runs, an interval stays.  Nothing happens when no
    such timer is pending. *)
Definition fireTimer (id : nat) : M unit :=
  fun w =>
    match find (fun t => Nat.eqb (timerId t) id) (timers w) with
    | None => (tt, w)
    | Some t =>
        ((if repeats t then ret tt else clearInterval id) ;;
         runTimer (handler t)) w
    end.

(** ** The event loop *)

Inductive Event : Type :=
| pressStart               (* mousedown / touchstart on the game area *)
| pressEnd                 (* mouseup / touchend on the document *)
| clickReset               (* onClick of the reset button *)
| timerFires (id : nat).   (* the browser runs a pending timer *)

(** The handler of one event, as created by the current render. *)
Definition handleEvent (ev : Event) : M unit :=
  fun w =>
    match ev with
    | pressStart => handleTouchStart (react w) w
    | pressEnd => handleTouchEnd (react w) w
    | clickReset => resetScore w
    | timerFires id => fireTimer id w
    end.

(** One turn of the loop: the handler runs, the component renders the
    new state, then the auto-shoot effect of that render runs. *)
Definition dispatch (ev : Event) (w : World) : World :=
  let w1 := exec (handleEvent ev) w in
  exec (autoShoot (react w1)) w1.

Definition run (evs : list Event) (w : World) : World :=
  fold_left (fun acc ev => dispatch ev acc) evs w.

(** [n] consecutive firings of the timer [id]. *)
Definition ticks (n : nat) (id : nat) : list Event := repeat (timerFires id) n.

(** ** The view

    The parts of the JSX that compute something from the state. *)

(** The class of the power fill:
    [power >= perfectZoneStart && power <= perfectZoneEnd ? green
     : power < perfectZoneStart ? red : yellow-orange]. *)
Definition powerFillClass (r : Render) : string :=
  if (power r >=? perfectZoneStart) && (power r <=? perfectZoneEnd) then
    "bg-gradient-to-r from-green-400 to-green-500"
  else if power r <? perfectZoneStart then
    "bg-gradient-to-r from-red-400 to-red-500"
  else
    "bg-gradient-to-r from-yellow-400 to-orange-500".

(** The perfect zone indicator, [left] and [width] in percent of the bar. *)
Definition perfectZoneLeft : Z := perfectZoneStart.
Definition perfectZoneWidth : Z := perfectZoneEnd - perfectZoneStart.

(** [{cond && "text"}]: the text when the condition holds, nothing
    otherwise. *)
Definition jsxWhen (cond : bool) (text : string) : list string :=
  if cond then [text] else [].

(** The instruction line under the power bar. *)
Definition instructions (r : Render) : list string :=
  jsxWhen (GameState_eqb (gameState r) waiting) "Şut atmak için basılı tut"
  ++ jsxWhen (GameState_eqb (gameState r) charging)
             "Yeşil alana gelince bırak!"
  ++ jsxWhen (GameState_eqb (gameState r) shooting) "Şut atılıyor...".

(** The title of the result card. *)
Definition resultTitle (r : Render) : list string :=
  jsxWhen (ShotResult_eqb (shotResult r) goal) "GOL!"
  ++ jsxWhen (ShotResult_eqb (shotResult r) save) "Kaleci Kurtardı!"
  ++ jsxWhen (ShotResult_eqb (shotResult r) miss) "Dışarı Gitti!".

(** [{showResult && (<div> ... </div>)}]: the card is rendered only
    while [showResult] holds. *)
Definition resultCard (r : Render) : option (list string) :=
  if showResult r then Some (resultTitle r) else None.

(** [Math.round] on an exact value: the nearest integer, halves upwards. *)
Definition Math_round (q : Q) : Z := Qfloor (q + (1#2)).

(** The success rate of the footer,
    [attempts > 0 ? Math.round((score / attempts) * 100) : 0],
    with the division taken exactly. *)
Definition successRate (r : Render) : Z :=
  if attempts r >? 0 then
    Math_round ((inject_Z (score r) / inject_Z (attempts r)) * 100)
  else 0.

(** ** Predicates and scenarios used by the properties *)

(** The ball on the penalty spot. *)
Definition defaultBall : BallPosition := {| x := 50; y := 85 |}.

(** What every turn of the loop preserves. *)
Definition Inv (w : World) : Prop :=
  (gameState (react w) = waiting \/ gameState (react w) = charging ->
   goalkeeperPosition (react w) = Some "center"%string /\
   ballPosition (react w) = defaultBall) /\
  0 <= score (react w) <= attempts (react w) /\
  0 <= power (react w) <= 100 /\
  Z.even (power (react w)) = true.

(** After the auto-shoot effect has run, a charging round is below 100. *)
Definition settled (w : World) : Prop :=
  gameState (react w) = charging -> power (react w) < 100.

(** The pending timer with the given id, if any. *)
Definition pending (id : nat) (w : World) : option Timer :=
  find (fun t => Nat.eqb (timerId t) id) (timers w).

(** The table once [clearInterval id] has run. *)
Definition without (id : nat) (ts : list Timer) : list Timer :=
  filter (fun t => negb (Nat.eqb (timerId t) id)) ts.

(** The shape of the three kinds of timer the component creates. *)
Definition timerShape (t : Timer) : Prop :=
  match handler t with
  | chargeTick => delay t = 50 /\ repeats t = true
  | showOverlay => delay t = 1000 /\ repeats t = false
  | roundReset => delay t = 2000 /\ repeats t = false
  end.

(** The timer table of a reachable world: every timer has one of the
    three shapes and an id already handed out; so has the ref. *)
Definition TimersInv (w : World) : Prop :=
  Forall (fun t => timerShape t /\ (1 <= timerId t < nextTimerId w)%nat)
         (timers w) /\
  match powerIntervalRef w with
  | Some id => (1 <= id < nextTimerId w)%nat
  | None => True
  end /\
  (1 <= nextTimerId w)%nat.

(** A random source that always answers 0. *)
Definition noRandom : nat -> Q := fun _ => 0%Q.

(** A random source sending the goalkeeper to the left (first value 0)
    with no jitter on the ball (second value 1/2). *)
Definition diveLeft : nat -> Q :=
  fun n => match n with O => 0%Q | S _ => (1#2)%Q end.

(** From the first render: a press, then [n] ticks of its interval,
    which has id 1. *)
Definition chargeTo (n : nat) : list Event := pressStart :: ticks n 1.

(** A press held until one tick short of full power (98). *)
Definition fullCharge : list Event := pressStart :: ticks 49 1.

(** The state in which the reset button was pressed between the release
    and the overlay: the round is back in [waiting], the 1000 ms timeout
    of the release is still pending under id 2. *)
Definition hardResetMidSequence : World :=
  run [pressStart; pressEnd; clickReset] (initialWorld noRandom).

(** The next round, started after that timeout has fired and after one
    tick of its own interval (id 4), with the 2000 ms timeout (id 3) of
    the cleared round still pending. *)
Definition nextRoundCharging : World :=
  run [timerFires 2; pressStart; timerFires 4] hardResetMidSequence.

(** Phase and result agree: the declared phase ['result'] is never
    entered, and a result is stored exactly while shooting. *)
Definition Coherent (w : World) : Prop :=
  gameState (react w) <> result /\
  (shotResult (react w) = null <->
   gameState (react w) = waiting \/ gameState (react w) = charging).

(** [Math.random()] answers in [0, 1). *)
Definition validSource (rnd : nat -> Q) : Prop :=
  forall n : nat, (0 <= rnd n)%Q /\ (rnd n < 1)%Q.

(** The goalkeeper is in one of the three slots and the ball is on the
    pitch, between the extreme targets. *)
Definition InField (w : World) : Prop :=
  (goalkeeperPosition (react w) = Some "left"%string \/
   goalkeeperPosition (react w) = Some "center"%string \/
   goalkeeperPosition (react w) = Some "right"%string) /\
  (30 <= x (ballPosition (react w)) <= 70)%Q /\
  (10 <= y (ballPosition (react w)) <= 85)%Q.


(** A press held for [n] ticks of the interval it starts in [w]. *)
Definition hold (n : nat) (w : World) : list Event :=
  pressStart :: ticks n (nextTimerId w).


(** A whole round played in [w]: a press held for [n] ticks, the
    release, then the two timeouts of that release. *)
Definition playRound (n : nat) (w : World) : list Event :=
  hold n w
  ++ [pressEnd; timerFires (S (nextTimerId w));
      timerFires (S (S (nextTimerId w)))].


(** ** Reasoning about the handlers *)

(** Unfolds the monadic plumbing; to be used once the tests of a handler
    have been decided, so that straight-line code remains. *)
Ltac js_unfold :=
  cbv [exec handleEvent handleTouchStart handleTouchEnd resetScore resetGame
       autoShoot runTimer animateGoalkeeper animateBall bind ret
       modifyReact setGameState setPowerFn setPower setScoreFn setScore
       setAttemptsFn setAttempts setShotResult setGoalkeeperPosition
       setBallPosition setShowResult readPowerIntervalRef
       writePowerIntervalRef addTimer setInterval setTimeout clearInterval
       Math_random snd fst ShotResult_eqb GameState_eqb negb andb
       react powerIntervalRef timers nextTimerId entropy drawn
       gameState power score attempts shotResult goalkeeperPosition
       ballPosition showResult].

Ltac destruct_world w :=
  let r := fresh "r" in
  destruct w as [r ? ? ? ? ?]; destruct r as [? ? ? ? ? ? ? ?].

Lemma chargeStep_bounds (p : Z) :
  0 <= p <= 100 -> Z.even p = true ->
  0 <= chargeStep p <= 100 /\ Z.even (chargeStep p) = true.
Proof.
  intros Hp He. unfold chargeStep.
  destruct (Z.geb_spec p 100) as [Hge | Hlt].
  - split; [lia | reflexivity].
  - assert (p <> 99) by (intros ->; discriminate He).
    split; [lia |].
    rewrite Z.even_add, He. reflexivity.
Qed.

Lemma Inv_initial (rnd : nat -> Q) : Inv (initialWorld rnd).
Proof.
  unfold Inv; cbn. repeat split; try lia; reflexivity.
Qed.

Lemma handleTouchEnd_Inv (w : World) :
  Inv w -> Inv (exec (handleTouchEnd (react w)) w).
Proof.
  unfold Inv. destruct_world w. cbn [react gameState power score attempts
    goalkeeperPosition ballPosition].
  intros (Hrest & Hsc & Hp & He).
  unfold exec, handleTouchEnd. cbn [gameState power].
  destruct gameState0; cbn [GameState_eqb negb ret snd react gameState
    power score attempts goalkeeperPosition ballPosition]; auto.
  destruct (calculateShotOutcome power0);
    destruct powerIntervalRef0 as [[|id]|]; js_unfold;
    (split; [intros [H|H]; discriminate H | split; [lia | auto]]).
Qed.

Lemma autoShoot_Inv (w : World) :
  Inv w -> Inv (exec (autoShoot (react w)) w).
Proof.
  intros H. unfold autoShoot.
  destruct (_ && _).
  - apply handleTouchEnd_Inv, H.
  - exact H.
Qed.

Lemma handleEvent_Inv (ev : Event) (w : World) :
  Inv w -> Inv (exec (handleEvent ev) w).
Proof.
  destruct ev as [ | | | id].
  - (* pressStart *)
    unfold Inv. destruct_world w.
    intros (Hrest & Hsc & Hp & He). revert Hrest Hsc Hp He.
    destruct gameState0; js_unfold; intros; auto.
    repeat split; try lia. all: apply Hrest; auto.
  - (* pressEnd *)
    apply handleTouchEnd_Inv.
  - (* clickReset *)
    intros _. unfold Inv. destruct_world w. js_unfold.
    repeat split; lia.
  - (* timerFires *)
    intros H. unfold exec, handleEvent, fireTimer.
    destruct (find _ (timers w)) as [[tid h d rep]|]; [| exact H].
    revert H. unfold Inv. destruct_world w.
    cbn [react gameState power score attempts goalkeeperPosition
         ballPosition repeats handler].
    intros (Hrest & Hsc & Hp & He).
    destruct h, rep; js_unfold;
      try (destruct (chargeStep_bounds _ Hp He); auto);
      repeat split; auto; try lia.
Qed.

Lemma autoShoot_settled (w : World) : settled (exec (autoShoot (react w)) w).
Proof.
  unfold settled, autoShoot.
  destruct (Z.geb_spec (power (react w)) 100) as [Hge | Hlt]; cbn [andb].
  - destruct (gameState (react w)) eqn:Hgs; cbn [GameState_eqb exec ret snd];
      try (rewrite Hgs; discriminate).
    unfold exec, handleTouchEnd. rewrite Hgs. cbn [GameState_eqb negb].
    destruct_world w.
    destruct (calculateShotOutcome _);
      destruct powerIntervalRef0 as [[|id]|]; js_unfold; discriminate.
  - cbn [exec ret snd]. intros _. exact Hlt.
Qed.

Lemma dispatch_Inv (ev : Event) (w : World) : Inv w -> Inv (dispatch ev w).
Proof.
  intros H. unfold dispatch. apply autoShoot_Inv, handleEvent_Inv, H.
Qed.

Lemma dispatch_settled (ev : Event) (w : World) : settled (dispatch ev w).
Proof. unfold dispatch. apply autoShoot_settled. Qed.

Lemma run_app (evs1 evs2 : list Event) (w : World) :
  run (evs1 ++ evs2) w = run evs2 (run evs1 w).
Proof. unfold run. apply fold_left_app. Qed.

Lemma run_snoc (evs : list Event) (ev : Event) (w : World) :
  run (evs ++ [ev]) w = dispatch ev (run evs w).
Proof. rewrite run_app. reflexivity. Qed.

Lemma run_Inv (evs : list Event) (w : World) : Inv w -> Inv (run evs w).
Proof.
  revert w. induction evs as [| ev evs IH]; intros w H; cbn.
  - exact H.
  - apply IH, dispatch_Inv, H.
Qed.

Lemma run_settled (evs : list Event) (w : World) :
  settled w -> settled (run evs w).
Proof.
  induction evs as [| ev evs IH] using rev_ind; intros H.
  - exact H.
  - rewrite run_snoc. apply dispatch_settled.
Qed.

Lemma settled_initial (rnd : nat -> Q) : settled (initialWorld rnd).
Proof. intros H. discriminate H. Qed.

(** *** What a release does *)

(** The hook state after [handleTouchEnd] has run in a charging render;
    the ball is described by [handleTouchEnd_ball] below. *)
Lemma handleTouchEnd_charging (w : World) :
  gameState (react w) = charging ->
  let w' := exec (handleTouchEnd (react w)) w in
  let res := calculateShotOutcome (power (react w)) in
  gameState (react w') = shooting /\
  power (react w') = power (react w) /\
  shotResult (react w') = res /\
  attempts (react w') = attempts (react w) + 1 /\
  score (react w') =
    (if ShotResult_eqb res goal then score (react w) + 1
     else score (react w)) /\
  showResult (react w') = showResult (react w) /\
  goalkeeperPosition (react w') =
    arrayGet positions
      (Qfloor (entropy w (drawn w)
               * inject_Z (Z.of_nat (List.length positions)))).
Proof.
  intros Hgs. unfold exec, handleTouchEnd. rewrite Hgs.
  cbn [GameState_eqb negb]. cbv zeta.
  destruct_world w. cbn [react power].
  destruct (calculateShotOutcome power0);
    destruct powerIntervalRef0 as [[|id]|]; js_unfold;
    repeat split; reflexivity.
Qed.

Lemma handleTouchEnd_other_phase (w : World) :
  gameState (react w) <> charging -> exec (handleTouchEnd (react w)) w = w.
Proof.
  intros Hgs. unfold exec, handleTouchEnd.
  destruct (gameState (react w)); try reflexivity. now elim Hgs.
Qed.

Lemma handleTouchStart_other_phase (w : World) :
  gameState (react w) <> waiting -> exec (handleTouchStart (react w)) w = w.
Proof.
  intros Hgs. unfold exec, handleTouchStart.
  destruct (gameState (react w)); try reflexivity. now elim Hgs.
Qed.

(** The effect does nothing on a settled world. *)
Lemma autoShoot_rest (w : World) :
  settled w -> exec (autoShoot (react w)) w = w.
Proof.
  intros Hs. unfold autoShoot.
  destruct (Z.geb_spec (power (react w)) 100) as [Hge | Hlt];
    [| reflexivity].
  destruct (gameState (react w)) eqn:Hgs; try reflexivity.
  specialize (Hs Hgs). lia.
Qed.

(** The effect is the release handler once a charging round is at 100. *)
Lemma autoShoot_fires (w : World) :
  gameState (react w) = charging -> power (react w) >= 100 ->
  exec (autoShoot (react w)) w = exec (handleTouchEnd (react w)) w.
Proof.
  intros Hgs Hp. unfold autoShoot. rewrite Hgs.
  destruct (Z.geb_spec (power (react w)) 100) as [Hge | Hlt];
    [reflexivity | lia].
Qed.

(** ** The outcome resolver *)

(** C1. The outcome depends on the power alone: goal on [70, 85], save
    below 70, miss above 85; 70 and 85 are goals, 69 is a save and 86 a
    miss. *)
Theorem calculateShotOutcome_zones (p : Z) :
  (70 <= p <= 85 -> calculateShotOutcome p = goal) /\
  (p < 70 -> calculateShotOutcome p = save) /\
  (p > 85 -> calculateShotOutcome p = miss) /\
  calculateShotOutcome 70 = goal /\
  calculateShotOutcome 85 = goal /\
  calculateShotOutcome 69 = save /\
  calculateShotOutcome 86 = miss.
Proof.
  unfold calculateShotOutcome, perfectZoneStart, perfectZoneEnd.
  repeat split; try reflexivity; intros H;
    destruct (Z.geb_spec p 70), (Z.leb_spec p 85), (Z.ltb_spec p 70);
    cbn [andb]; try reflexivity; lia.
Qed.

Lemma calculateShotOutcome_zones_witness :
  calculateShotOutcome 77 = goal /\
  calculateShotOutcome 12 = save /\
  calculateShotOutcome 98 = miss.
Proof.
  split; [| split].
  - apply (proj1 (calculateShotOutcome_zones 77)). lia.
  - apply (proj1 (proj2 (calculateShotOutcome_zones 12))). lia.
  - apply (proj1 (proj2 (proj2 (calculateShotOutcome_zones 98)))). lia.
Defined.

(** The resolver never answers [null]. *)
Lemma calculateShotOutcome_not_null (p : Z) : calculateShotOutcome p <> null.
Proof.
  unfold calculateShotOutcome.
  destruct (_ && _); [discriminate |].
  destruct (_ <? _); discriminate.
Qed.

(** ** Auto-release *)

(** C2. When the state rendered after a handler is still charging with
    power at or above 100, the turn ends with the release sequence run on
    that state: the power is exactly 100, the outcome is
    [calculateShotOutcome 100], a miss, attempts grows by one and the
    score is unchanged. *)
Theorem auto_release_at_full_power
  (rnd : nat -> Q) (evs : list Event) (ev : Event) :
  let w0 := run evs (initialWorld rnd) in
  let w1 := exec (handleEvent ev) w0 in
  gameState (react w1) = charging ->
  100 <= power (react w1) ->
  power (react w1) = 100 /\
  dispatch ev w0 = exec (handleTouchEnd (react w1)) w1 /\
  gameState (react (dispatch ev w0)) = shooting /\
  shotResult (react (dispatch ev w0)) = calculateShotOutcome 100 /\
  calculateShotOutcome 100 = miss /\
  attempts (react (dispatch ev w0)) = attempts (react w1) + 1 /\
  score (react (dispatch ev w0)) = score (react w1).
Proof.
  intros w0 w1 Hgs Hp.
  assert (Hinv : Inv w1)
    by (apply handleEvent_Inv, run_Inv, Inv_initial).
  assert (H100 : power (react w1) = 100)
    by (destruct Hinv as (_ & _ & Hb & _); lia).
  assert (Hd : dispatch ev w0 = exec (handleTouchEnd (react w1)) w1)
    by (apply autoShoot_fires; [exact Hgs | lia]).
  destruct (handleTouchEnd_charging w1 Hgs)
    as (Hs & _ & Hr & Ha & Hsc & _).
  rewrite H100 in Hr, Hsc. cbn in Hsc.
  rewrite Hd. repeat split; auto.
Qed.

Lemma auto_release_at_full_power_witness :
  let w := dispatch (timerFires 1) (run fullCharge (initialWorld noRandom)) in
  gameState (react w) = shooting /\ shotResult (react w) = miss /\
  attempts (react w) = 1 /\ score (react w) = 0.
Proof.
  destruct (auto_release_at_full_power noRandom fullCharge (timerFires 1))
    as (_ & _ & Hs & Hr & Hm & Ha & Hsc).
  - vm_compute. reflexivity.
  - vm_compute. discriminate.
  - cbv zeta. rewrite Hs, Hr, Hm, Ha, Hsc. vm_compute. auto.
Defined.

(** ** Timers *)

Lemma fireTimer_not_pending (id : nat) (w : World) :
  pending id w = None -> exec (fireTimer id) w = w.
Proof.
  unfold pending, exec, fireTimer. intros ->. reflexivity.
Qed.

(** A charging tick only moves the power. *)
Lemma fireTimer_chargeTick (id : nat) (w : World) (t : Timer) :
  pending id w = Some t -> handler t = chargeTick ->
  react (exec (fireTimer id) w) =
    {| gameState := gameState (react w);
       power := chargeStep (power (react w));
       score := score (react w);
       attempts := attempts (react w);
       shotResult := shotResult (react w);
       goalkeeperPosition := goalkeeperPosition (react w);
       ballPosition := ballPosition (react w);
       showResult := showResult (react w) |}.
Proof.
  unfold pending, exec, fireTimer. intros -> Hh. rewrite Hh.
  destruct_world w. destruct (repeats t); js_unfold; reflexivity.
Qed.

(** The overlay callback: no test of the phase. *)
Lemma fireTimer_showOverlay (id : nat) (w : World) (t : Timer) :
  pending id w = Some t -> handler t = showOverlay -> repeats t = false ->
  let w' := exec (fireTimer id) w in
  react w' =
    {| gameState := gameState (react w);
       power := power (react w);
       score := score (react w);
       attempts := attempts (react w);
       shotResult := shotResult (react w);
       goalkeeperPosition := goalkeeperPosition (react w);
       ballPosition := ballPosition (react w);
       showResult := true |} /\
  timers w' =
    without id (timers w)
    ++ [{| timerId := nextTimerId w; handler := roundReset;
           delay := 2000; repeats := false |}].
Proof.
  unfold pending, exec, fireTimer, without. intros -> Hh Hr.
  rewrite Hh, Hr. destruct_world w. js_unfold. split; reflexivity.
Qed.

(** The round-reset callback: no test of the phase either. *)
Lemma fireTimer_roundReset (id : nat) (w : World) (t : Timer) :
  pending id w = Some t -> handler t = roundReset -> repeats t = false ->
  let w' := exec (fireTimer id) w in
  react w' =
    {| gameState := waiting;
       power := 0;
       score := score (react w);
       attempts := attempts (react w);
       shotResult := null;
       goalkeeperPosition := Some "center"%string;
       ballPosition := defaultBall;
       showResult := false |} /\
  timers w' = without id (timers w).
Proof.
  unfold pending, exec, fireTimer, without. intros -> Hh Hr.
  rewrite Hh, Hr. destruct_world w. js_unfold. split; reflexivity.
Qed.

(** Whatever the timer, firing it leaves the session counters alone and
    ends in the phase it started in or in [waiting]. *)
Lemma fireTimer_frame (id : nat) (w : World) :
  let w' := exec (fireTimer id) w in
  score (react w') = score (react w) /\
  attempts (react w') = attempts (react w) /\
  (gameState (react w') = gameState (react w) \/
   gameState (react w') = waiting).
Proof.
  unfold exec, fireTimer.
  destruct (find _ (timers w)) as [[tid h d rep]|]; [| cbn; auto].
  destruct_world w. destruct h, rep; js_unfold; auto.
Qed.

(** The handler each event reaches. *)
Lemma exec_pressStart (w : World) :
  exec (handleEvent pressStart) w = exec (handleTouchStart (react w)) w.
Proof. reflexivity. Qed.

Lemma exec_pressEnd (w : World) :
  exec (handleEvent pressEnd) w = exec (handleTouchEnd (react w)) w.
Proof. reflexivity. Qed.

Lemma exec_clickReset (w : World) :
  exec (handleEvent clickReset) w = exec resetScore w.
Proof. reflexivity. Qed.

Lemma exec_timerFires (id : nat) (w : World) :
  exec (handleEvent (timerFires id)) w = exec (fireTimer id) w.
Proof. reflexivity. Qed.

(** ** The session score *)

(** A turn that takes a settled charging round to [shooting] is a
    release, explicit or automatic: it counts one attempt, and one
    success exactly when the stored result is a goal. *)
Lemma release_step_counts (ev : Event) (w : World) :
  Inv w -> settled w ->
  gameState (react w) = charging ->
  gameState (react (dispatch ev w)) = shooting ->
  attempts (react (dispatch ev w)) = attempts (react w) + 1 /\
  ((shotResult (react (dispatch ev w)) = goal /\
    score (react (dispatch ev w)) = score (react w) + 1) \/
   (shotResult (react (dispatch ev w)) <> goal /\
    score (react (dispatch ev w)) = score (react w))).
Proof.
  intros Hinv Hset Hgs.
  assert (Hrel : forall w1 : World,
    gameState (react w1) = charging ->
    attempts (react w1) = attempts (react w) ->
    score (react w1) = score (react w) ->
    let w2 := exec (handleTouchEnd (react w1)) w1 in
    attempts (react w2) = attempts (react w) + 1 /\
    ((shotResult (react w2) = goal /\ score (react w2) = score (react w) + 1)
     \/ (shotResult (react w2) <> goal /\
         score (react w2) = score (react w)))).
  { intros w1 Hgs1 Ha1 Hs1 w2.
    destruct (handleTouchEnd_charging w1 Hgs1)
      as (_ & _ & Hr & Ha & Hsc & _).
    fold w2 in Hr, Ha, Hsc. rewrite Hr, Ha, Hsc, Ha1, Hs1.
    split; [reflexivity |].
    destruct (calculateShotOutcome (power (react w1)));
      cbn [ShotResult_eqb]; [left | right | right | right];
      split; auto; discriminate. }
  unfold dispatch.
  set (w1 := exec (handleEvent ev) w).
  destruct (gameState (react w1)) eqn:Hgs1.
  - (* waiting: the effect rests *)
    rewrite autoShoot_rest by (intros H; congruence). congruence.
  - (* charging *)
    assert (Hframe : attempts (react w1) = attempts (react w) /\
                     score (react w1) = score (react w)).
    { subst w1. destruct ev as [ | | | id].
      - rewrite exec_pressStart, handleTouchStart_other_phase by congruence.
        auto.
      - rewrite exec_pressEnd in Hgs1.
        destruct (handleTouchEnd_charging w Hgs) as (Hsh & _). congruence.
      - revert Hgs1. rewrite exec_clickReset.
        destruct_world w. js_unfold. discriminate.
      - rewrite exec_timerFires.
        destruct (fireTimer_frame id w) as (Hs & Ha & _). auto. }
    destruct Hframe as (Ha1 & Hs1).
    destruct (Z_lt_ge_dec (power (react w1)) 100) as [Hlt | Hge].
    + rewrite autoShoot_rest by (intros _; exact Hlt). congruence.
    + rewrite autoShoot_fires by assumption. intros _.
      apply Hrel; assumption.
  - (* shooting: only the release handler itself leads here *)
    rewrite autoShoot_rest by (intros H; congruence). intros _.
    subst w1. destruct ev as [ | | | id].
    + rewrite exec_pressStart, handleTouchStart_other_phase in Hgs1
        by congruence.
      congruence.
    + rewrite exec_pressEnd. apply (Hrel w); auto.
    + revert Hgs1. rewrite exec_clickReset.
      destruct_world w. js_unfold. discriminate.
    + rewrite exec_timerFires in Hgs1.
      destruct (fireTimer_frame id w) as (_ & _ & [Hp | Hp]); congruence.
  - (* result *)
    rewrite autoShoot_rest by (intros H; congruence). congruence.
Qed.

(** C5. After any sequence of events from the initial state the score
    never exceeds the attempts, and a release out of that state,
    explicit or automatic, adds one attempt and adds one success exactly
    when the result is a goal. *)
Theorem score_at_most_attempts
  (rnd : nat -> Q) (evs : list Event) (ev : Event) :
  let w := run evs (initialWorld rnd) in
  let w' := dispatch ev w in
  score (react w) <= attempts (react w) /\
  (gameState (react w) = charging -> gameState (react w') = shooting ->
   attempts (react w') = attempts (react w) + 1 /\
   ((shotResult (react w') = goal /\
     score (react w') = score (react w) + 1) \/
    (shotResult (react w') <> goal /\
     score (react w') = score (react w)))).
Proof.
  intros w w'.
  assert (Hinv : Inv w) by apply run_Inv, Inv_initial.
  split.
  - destruct Hinv as (_ & Hsc & _). lia.
  - apply release_step_counts.
    + exact Hinv.
    + apply run_settled, settled_initial.
Qed.

Lemma score_at_most_attempts_witness :
  let w := run (chargeTo 36) (initialWorld noRandom) in
  let w' := dispatch pressEnd w in
  power (react w) = 72 /\
  attempts (react w') = attempts (react w) + 1 /\
  shotResult (react w') = goal /\
  score (react w') = score (react w) + 1.
Proof.
  destruct (score_at_most_attempts noRandom (chargeTo 36) pressEnd)
    as (_ & H).
  destruct H as (Ha & Hs).
  - vm_compute. reflexivity.
  - vm_compute. reflexivity.
  - cbv zeta. rewrite Ha. vm_compute. auto.
Defined.

(** ** The score reset *)

(** C7. In any phase the reset button puts the session at (0, 0) and
    the round at its defaults in [waiting]; pressing it a second time
    changes nothing. *)
Theorem resetScore_idempotent (w : World) :
  let w1 := dispatch clickReset w in
  score (react w1) = 0 /\ attempts (react w1) = 0 /\
  gameState (react w1) = waiting /\ power (react w1) = 0 /\
  shotResult (react w1) = null /\ showResult (react w1) = false /\
  ballPosition (react w1) = defaultBall /\
  goalkeeperPosition (react w1) = Some "center"%string /\
  dispatch clickReset w1 = w1.
Proof.
  unfold dispatch. rewrite exec_clickReset.
  assert (Hr : react (exec resetScore w) = initialRender)
    by (destruct_world w; js_unfold; reflexivity).
  rewrite autoShoot_rest by (intros H; rewrite Hr in H; discriminate H).
  cbv zeta. rewrite Hr.
  do 8 (split; [reflexivity |]).
  rewrite exec_clickReset, autoShoot_rest.
  - destruct_world w. js_unfold. reflexivity.
  - intros H. revert H. destruct_world w. js_unfold. discriminate.
Qed.

(** ** Inputs out of phase *)

(** C8. A press start outside [waiting] and a press end outside
    [charging] leave the whole world as it was: the handlers return at
    once, and in a state the loop can reach the turn changes nothing
    either. *)
Theorem out_of_phase_input_ignored
  (rnd : nat -> Q) (evs : list Event) (w0 : World) :
  let w := run evs (initialWorld rnd) in
  (gameState (react w0) <> waiting ->
   exec (handleTouchStart (react w0)) w0 = w0) /\
  (gameState (react w0) <> charging ->
   exec (handleTouchEnd (react w0)) w0 = w0) /\
  (gameState (react w) <> waiting -> dispatch pressStart w = w) /\
  (gameState (react w) <> charging -> dispatch pressEnd w = w).
Proof.
  intros w.
  assert (Hset : settled w) by apply run_settled, settled_initial.
  split; [apply handleTouchStart_other_phase |].
  split; [apply handleTouchEnd_other_phase |].
  split; intros H; unfold dispatch.
  - rewrite exec_pressStart, handleTouchStart_other_phase by exact H.
    apply autoShoot_rest, Hset.
  - rewrite exec_pressEnd, handleTouchEnd_other_phase by exact H.
    apply autoShoot_rest, Hset.
Qed.

Lemma out_of_phase_input_ignored_witness :
  let charged := run (chargeTo 5) (initialWorld noRandom) in
  let idle := run [] (initialWorld noRandom) in
  dispatch pressStart charged = charged /\ dispatch pressEnd idle = idle.
Proof.
  pose proof (out_of_phase_input_ignored noRandom (chargeTo 5)
                (initialWorld noRandom)) as (_ & _ & Hstart & _).
  pose proof (out_of_phase_input_ignored noRandom []
                (initialWorld noRandom)) as (_ & _ & _ & Hend).
  split.
  - apply Hstart. vm_compute. discriminate.
  - apply Hend. vm_compute. discriminate.
Defined.

(** ** The power charger *)

Lemma chargeStep_cases (p : Z) :
  (p < 100 -> chargeStep p = p + 2) /\ (100 <= p -> chargeStep p = 100).
Proof.
  unfold chargeStep.
  destruct (Z.geb_spec p 100); split; intros; (reflexivity || lia).
Qed.

(** Pressing in [waiting] starts a round at power 0 and one interval of
    50 ms running the charging tick, kept in the ref. *)
Lemma handleTouchStart_waiting (w : World) :
  gameState (react w) = waiting ->
  let w' := exec (handleTouchStart (react w)) w in
  gameState (react w') = charging /\ power (react w') = 0 /\
  shotResult (react w') = null /\ showResult (react w') = false /\
  goalkeeperPosition (react w') = goalkeeperPosition (react w) /\
  ballPosition (react w') = ballPosition (react w) /\
  score (react w') = score (react w) /\
  attempts (react w') = attempts (react w) /\
  powerIntervalRef w' = Some (nextTimerId w) /\
  timers w' =
    timers w ++ [{| timerId := nextTimerId w; handler := chargeTick;
                    delay := 50; repeats := true |}].
Proof.
  intros Hgs. unfold exec, handleTouchStart. rewrite Hgs.
  destruct_world w. js_unfold. repeat split.
Qed.

(** The release clears the timer named by the ref and starts the 1000 ms
    overlay timeout; the ref itself keeps the stale id. *)
Lemma handleTouchEnd_timers (w : World) :
  gameState (react w) = charging ->
  let w' := exec (handleTouchEnd (react w)) w in
  timers w' =
    match powerIntervalRef w with
    | Some (S n) => without (S n) (timers w)
    | _ => timers w
    end
    ++ [{| timerId := nextTimerId w; handler := showOverlay;
           delay := 1000; repeats := false |}] /\
  nextTimerId w' = S (nextTimerId w) /\
  powerIntervalRef w' = powerIntervalRef w.
Proof.
  intros Hgs. unfold exec, handleTouchEnd, without. rewrite Hgs.
  cbn [GameState_eqb negb]. cbv zeta.
  destruct_world w. cbn [react power].
  destruct (calculateShotOutcome power0);
    destruct powerIntervalRef0 as [[|id]|]; js_unfold;
    repeat split; reflexivity.
Qed.

Lemma Forall_without {P : Timer -> Prop} (id : nat) (ts : list Timer) :
  Forall P ts -> Forall P (without id ts).
Proof.
  intros H. unfold without. rewrite Forall_forall in *.
  intros t Ht. apply filter_In in Ht. apply H, Ht.
Qed.

Lemma Forall_id_bound_S (n : nat) (ts : list Timer) :
  Forall (fun t => timerShape t /\ (1 <= timerId t < n)%nat) ts ->
  Forall (fun t => timerShape t /\ (1 <= timerId t < S n)%nat) ts.
Proof.
  apply Forall_impl. intros t (Hs & Hb). split; [exact Hs | lia].
Qed.

Lemma TimersInv_initial (rnd : nat -> Q) : TimersInv (initialWorld rnd).
Proof.
  unfold TimersInv; cbn. repeat split; auto.
Qed.

Lemma handleTouchEnd_TimersInv (w : World) :
  TimersInv w -> TimersInv (exec (handleTouchEnd (react w)) w).
Proof.
  intros (Hts & Href & Hn).
  destruct (gameState (react w)) eqn:Hgs;
    try (rewrite handleTouchEnd_other_phase by congruence;
         repeat split; assumption).
  destruct (handleTouchEnd_timers w Hgs) as (Ht & Hnext & Hr).
  unfold TimersInv. rewrite Ht, Hnext, Hr.
  split; [| split].
  - apply Forall_app. split.
    + apply Forall_id_bound_S.
      destruct (powerIntervalRef w) as [[|n]|]; auto using Forall_without.
    + constructor; [| constructor].
      cbn. split; [split; reflexivity | lia].
  - destruct (powerIntervalRef w); [lia | exact I].
  - lia.
Qed.

Lemma autoShoot_TimersInv (w : World) :
  TimersInv w -> TimersInv (exec (autoShoot (react w)) w).
Proof.
  intros H. unfold autoShoot.
  destruct (_ && _); [apply handleTouchEnd_TimersInv, H | exact H].
Qed.

Lemma handleEvent_TimersInv (ev : Event) (w : World) :
  TimersInv w -> TimersInv (exec (handleEvent ev) w).
Proof.
  destruct ev as [ | | | id].
  - (* pressStart *)
    rewrite exec_pressStart. intros H.
    destruct (gameState (react w)) eqn:Hgs;
      try (rewrite handleTouchStart_other_phase by congruence; exact H).
    destruct H as (Hts & Href & Hn).
    destruct (handleTouchStart_waiting w Hgs)
      as (_ & _ & _ & _ & _ & _ & _ & _ & Hr & Ht).
    assert (Hnext : nextTimerId (exec (handleTouchStart (react w)) w)
                    = S (nextTimerId w)).
    { unfold exec, handleTouchStart. rewrite Hgs.
      destruct_world w. js_unfold. reflexivity. }
    unfold TimersInv. rewrite Ht, Hnext, Hr.
    split; [| split; lia].
    apply Forall_app. split.
    + apply Forall_id_bound_S, Hts.
    + constructor; [| constructor].
      cbn. split; [split; reflexivity | lia].
  - (* pressEnd *)
    apply handleTouchEnd_TimersInv.
  - (* clickReset *)
    rewrite exec_clickReset. unfold TimersInv.
    destruct_world w. js_unfold. auto.
  - (* timerFires *)
    rewrite exec_timerFires. intros H.
    destruct (pending id w) as [t |] eqn:Hp;
      [| rewrite fireTimer_not_pending by exact Hp; exact H].
    destruct H as (Hts & Href & Hn).
    assert (Hsh : timerShape t).
    { apply find_some in Hp. destruct Hp as (Hin & _).
      rewrite Forall_forall in Hts. apply Hts, Hin. }
    unfold pending in Hp. unfold TimersInv, exec, fireTimer. rewrite Hp.
    unfold timerShape in Hsh.
    destruct t as [tid h d rep]. cbn [handler delay repeats] in *.
    destruct h; destruct Hsh as (_ & ->); destruct_world w;
      cbn [powerIntervalRef timers nextTimerId] in *; js_unfold.
    + auto.
    + split; [| split; [destruct powerIntervalRef0; lia | lia]].
      apply Forall_app. split.
      * apply Forall_id_bound_S. apply (Forall_without id), Hts.
      * constructor; [| constructor].
        cbn. split; [split; reflexivity | lia].
    + split; [| split; assumption].
      apply (Forall_without id), Hts.
Qed.

Lemma run_TimersInv (evs : list Event) (w : World) :
  TimersInv w -> TimersInv (run evs w).
Proof.
  revert w. induction evs as [| ev evs IH]; intros w H; cbn.
  - exact H.
  - apply IH. unfold dispatch.
    apply autoShoot_TimersInv, handleEvent_TimersInv, H.
Qed.

(** The effect never moves the power. *)
Lemma autoShoot_power (w : World) :
  power (react (exec (autoShoot (react w)) w)) = power (react w).
Proof.
  unfold autoShoot.
  destruct (_ && _); [| reflexivity].
  destruct (gameState (react w)) eqn:Hgs;
    try (rewrite handleTouchEnd_other_phase by congruence; reflexivity).
  apply (handleTouchEnd_charging w Hgs).
Qed.

(** C9. The charging interval has a 50 ms period and each of its ticks
    takes the power [p] to [p + 2] below 100 and to 100 otherwise; in
    every state the loop reaches the power is within [0, 100]; a release
    right after the press, before any tick, shoots at power 0 and is
    saved. *)
Theorem charging_tick_and_clamp
  (rnd : nat -> Q) (evs : list Event) (id : nat) (t : Timer) :
  let w := run evs (initialWorld rnd) in
  0 <= power (react w) <= 100 /\
  (pending id w = Some t -> handler t = chargeTick ->
   delay t = 50 /\ repeats t = true /\
   (power (react w) < 100 ->
    power (react (dispatch (timerFires id) w)) = power (react w) + 2) /\
   (100 <= power (react w) ->
    power (react (dispatch (timerFires id) w)) = 100)) /\
  (gameState (react w) = waiting ->
   let w' := run [pressStart; pressEnd] w in
   gameState (react w') = shooting /\ power (react w') = 0 /\
   shotResult (react w') = save).
Proof.
  intros w.
  assert (Hinv : Inv w) by apply run_Inv, Inv_initial.
  assert (Htm : TimersInv w) by apply run_TimersInv, TimersInv_initial.
  split; [apply Hinv |]. split.
  - intros Hp Hh.
    assert (Hsh : timerShape t).
    { destruct Htm as (Hts & _). unfold pending in Hp.
      apply find_some in Hp. destruct Hp as (Hin & _).
      rewrite Forall_forall in Hts. apply Hts, Hin. }
    unfold timerShape in Hsh. rewrite Hh in Hsh.
    destruct Hsh as (Hd & Hr).
    split; [exact Hd |]. split; [exact Hr |].
    unfold dispatch. rewrite autoShoot_power, exec_timerFires.
    rewrite (fireTimer_chargeTick id w t Hp Hh). cbn [power].
    split; intros Hlt; apply chargeStep_cases, Hlt.
  - intros Hgs w'. subst w'. cbn [run fold_left].
    destruct (handleTouchStart_waiting w Hgs) as (Hc & Hp0 & _).
    set (w1 := dispatch pressStart w).
    assert (Hw1 : w1 = exec (handleTouchStart (react w)) w).
    { unfold w1, dispatch. rewrite exec_pressStart.
      apply autoShoot_rest. intros _. rewrite Hp0. lia. }
    rewrite <- Hw1 in Hc, Hp0.
    destruct (handleTouchEnd_charging w1 Hc) as (Hs & Hp & Hr & _).
    unfold dispatch. rewrite exec_pressEnd.
    rewrite autoShoot_rest by (intros H; congruence).
    rewrite Hs, Hp, Hr, Hp0. repeat split.
Qed.

Lemma charging_tick_and_clamp_witness :
  let w := run (chargeTo 3) (initialWorld noRandom) in
  let idle := initialWorld noRandom in
  power (react w) = 6 /\
  power (react (dispatch (timerFires 1) w)) = 6 + 2 /\
  shotResult (react (run [pressStart; pressEnd] idle)) = save.
Proof.
  pose proof (charging_tick_and_clamp noRandom (chargeTo 3) 1%nat
    {| timerId := 1; handler := chargeTick; delay := 50; repeats := true |})
    as (_ & Htick & _).
  pose proof (charging_tick_and_clamp noRandom [] 1%nat
    {| timerId := 1; handler := chargeTick; delay := 50; repeats := true |})
    as (_ & _ & Hrel).
  cbv zeta in *.
  split; [vm_compute; reflexivity |]. split.
  - destruct Htick as (_ & _ & Hlt & _).
    + vm_compute. reflexivity.
    + reflexivity.
    + rewrite Hlt; [vm_compute; reflexivity | vm_compute; reflexivity].
  - apply Hrel. vm_compute. reflexivity.
Defined.

(** ** Goalkeeper and ball at rest *)

(** A handler leaves goalkeeper and ball alone, or is the release of a
    charging round, or ends in [waiting]. *)
Lemma handleEvent_positions (ev : Event) (w : World) :
  let w1 := exec (handleEvent ev) w in
  (goalkeeperPosition (react w1) = goalkeeperPosition (react w) /\
   ballPosition (react w1) = ballPosition (react w)) \/
  (gameState (react w) = charging /\ gameState (react w1) = shooting) \/
  gameState (react w1) = waiting.
Proof.
  destruct ev as [ | | | id]; cbv zeta.
  - rewrite exec_pressStart.
    destruct (gameState (react w)) eqn:Hgs;
      try (rewrite handleTouchStart_other_phase by congruence; auto).
    left. split; apply (handleTouchStart_waiting w Hgs).
  - rewrite exec_pressEnd.
    destruct (gameState (react w)) eqn:Hgs;
      try (rewrite handleTouchEnd_other_phase by congruence; auto).
    right; left. split; [reflexivity |].
    apply (handleTouchEnd_charging w Hgs).
  - right; right. rewrite exec_clickReset.
    destruct_world w. js_unfold. reflexivity.
  - rewrite exec_timerFires. unfold exec, fireTimer.
    destruct (find _ (timers w)) as [[tid h d rep]|]; [| cbn; auto].
    destruct_world w. destruct h, rep; js_unfold; auto.
Qed.

(** The phase a handler leaves behind when it is not the one it found. *)
Lemma handleEvent_still_charging (ev : Event) (w : World) :
  let w1 := exec (handleEvent ev) w in
  gameState (react w1) = charging -> 100 <= power (react w1) ->
  gameState (react w) = charging.
Proof.
  destruct ev as [ | | | id]; cbv zeta.
  - rewrite exec_pressStart.
    destruct (gameState (react w)) eqn:Hgs;
      try (rewrite handleTouchStart_other_phase by congruence; congruence).
    destruct (handleTouchStart_waiting w Hgs) as (_ & Hp & _). lia.
  - rewrite exec_pressEnd.
    destruct (gameState (react w)) eqn:Hgs;
      try (rewrite handleTouchEnd_other_phase by congruence; congruence).
    reflexivity.
  - rewrite exec_clickReset.
    destruct_world w. js_unfold. discriminate.
  - rewrite exec_timerFires.
    destruct (fireTimer_frame id w) as (_ & _ & [H | H]); congruence.
Qed.

Lemma dispatch_positions (ev : Event) (w : World) :
  let w' := dispatch ev w in
  (goalkeeperPosition (react w') = goalkeeperPosition (react w) /\
   ballPosition (react w') = ballPosition (react w)) \/
  (gameState (react w) = charging /\ gameState (react w') = shooting) \/
  gameState (react w') = waiting.
Proof.
  unfold dispatch. set (w1 := exec (handleEvent ev) w). cbv zeta.
  destruct (gameState (react w1)) eqn:Hgs1;
    try (rewrite autoShoot_rest by (intros H; congruence);
         apply handleEvent_positions).
  destruct (Z_lt_ge_dec (power (react w1)) 100) as [Hlt | Hge].
  - rewrite autoShoot_rest by (intros _; exact Hlt).
    apply handleEvent_positions.
  - rewrite autoShoot_fires by assumption.
    right; left. split.
    + apply (handleEvent_still_charging ev w);
        [exact Hgs1 | fold w1; lia].
    + apply (handleTouchEnd_charging w1 Hgs1).
Qed.

(** C10. In every state the loop reaches whose phase is [waiting] or
    [charging], the goalkeeper is at the centre and the ball at (50, 85).
    The first render has these values; a press start keeps goalkeeper and
    ball; [resetGame] restores them on the way to [waiting]; and a turn
    changes them only as the release into [shooting] or on a return to
    [waiting]. *)
Theorem rest_positions_are_default
  (rnd : nat -> Q) (evs : list Event) (ev : Event) (w0 : World) :
  let w := run evs (initialWorld rnd) in
  let w' := dispatch ev w in
  (gameState (react w) = waiting \/ gameState (react w) = charging ->
   goalkeeperPosition (react w) = Some "center"%string /\
   ballPosition (react w) = {| x := 50; y := 85 |}%Q) /\
  (goalkeeperPosition initialRender = Some "center"%string /\
   ballPosition initialRender = {| x := 50; y := 85 |}%Q) /\
  (goalkeeperPosition (react (exec (handleTouchStart (react w0)) w0))
     = goalkeeperPosition (react w0) /\
   ballPosition (react (exec (handleTouchStart (react w0)) w0))
     = ballPosition (react w0)) /\
  (gameState (react (exec resetGame w0)) = waiting /\
   goalkeeperPosition (react (exec resetGame w0)) = Some "center"%string /\
   ballPosition (react (exec resetGame w0)) = {| x := 50; y := 85 |}%Q) /\
  ((goalkeeperPosition (react w') = goalkeeperPosition (react w) /\
    ballPosition (react w') = ballPosition (react w)) \/
   (gameState (react w) = charging /\ gameState (react w') = shooting) \/
   gameState (react w') = waiting).
Proof.
  intros w w'.
  split; [apply (run_Inv evs _ (Inv_initial rnd)) |].
  split; [split; reflexivity |].
  split.
  - destruct (gameState (react w0)) eqn:Hgs;
      try (rewrite handleTouchStart_other_phase by congruence; auto).
    split; apply (handleTouchStart_waiting w0 Hgs).
  - split; [| apply dispatch_positions].
    destruct_world w0. js_unfold. repeat split.
Qed.

Lemma rest_positions_are_default_witness :
  let w := run (chargeTo 40 ++ [pressEnd; timerFires 2; timerFires 3;
                                pressStart])
               (initialWorld noRandom) in
  gameState (react w) = charging /\
  goalkeeperPosition (react w) = Some "center"%string /\
  ballPosition (react w) = {| x := 50; y := 85 |}%Q.
Proof.
  cbv zeta. split; [vm_compute; reflexivity |].
  apply (proj1 (rest_positions_are_default noRandom
           (chargeTo 40 ++ [pressEnd; timerFires 2; timerFires 3; pressStart])
           pressStart (initialWorld noRandom))).
  right. vm_compute. reflexivity.
Defined.

(** ** Cancelling the charging interval *)

Lemma find_without (id : nat) (ts : list Timer) :
  find (fun t => Nat.eqb (timerId t) id) (without id ts) = None.
Proof.
  induction ts as [| t ts IH]; cbn; [reflexivity |].
  destruct (Nat.eqb (timerId t) id) eqn:E; cbn; [exact IH |].
  rewrite E. exact IH.
Qed.

Lemma find_app_none {A : Type} (f : A -> bool) (l1 l2 : list A) :
  find f l1 = None -> find f (l1 ++ l2) = find f l2.
Proof.
  induction l1 as [| a l1 IH]; cbn; [reflexivity |].
  destruct (f a); [discriminate | exact IH].
Qed.

(** The release handler cancels the timer the ref names. *)
Lemma handleTouchEnd_cancels (w : World) (id : nat) :
  TimersInv w ->
  gameState (react w) = charging ->
  powerIntervalRef w = Some id ->
  pending id (exec (handleTouchEnd (react w)) w) = None.
Proof.
  intros (_ & Hb & _) Hgs Href. rewrite Href in Hb.
  destruct (handleTouchEnd_timers w Hgs) as (Ht & _).
  unfold pending. rewrite Ht, Href.
  destruct id as [| n]; [lia |].
  rewrite find_app_none by apply find_without.
  cbn. destruct (Nat.eqb_spec (nextTimerId w) (S n)); [lia | reflexivity].
Qed.

(** Only a press start in [waiting] writes the ref. *)
Lemma handleEvent_ref (ev : Event) (w : World) :
  gameState (react w) <> waiting ->
  powerIntervalRef (exec (handleEvent ev) w) = powerIntervalRef w.
Proof.
  intros Hgs. destruct ev as [ | | | id].
  - rewrite exec_pressStart, handleTouchStart_other_phase by exact Hgs.
    reflexivity.
  - rewrite exec_pressEnd.
    destruct (gameState (react w)) eqn:E;
      try (rewrite handleTouchEnd_other_phase by congruence; reflexivity).
    apply (handleTouchEnd_timers w E).
  - rewrite exec_clickReset. destruct_world w. js_unfold. reflexivity.
  - rewrite exec_timerFires. unfold exec, fireTimer.
    destruct (find _ (timers w)) as [[tid h d rep]|]; [| reflexivity].
    destruct_world w. destruct h, rep; js_unfold; reflexivity.
Qed.

(** A turn that takes a charging round to [shooting], by explicit
    release or by auto-release, cancels the interval of that round: the
    timer the ref names is not pending afterwards. *)
Lemma release_cancels_interval
  (rnd : nat -> Q) (evs : list Event) (ev : Event) (id : nat) :
  let w := run evs (initialWorld rnd) in
  gameState (react w) = charging ->
  powerIntervalRef w = Some id ->
  gameState (react (dispatch ev w)) = shooting ->
  pending id (dispatch ev w) = None.
Proof.
  intros w Hgs Href.
  assert (Htm : TimersInv w) by apply run_TimersInv, TimersInv_initial.
  assert (Htm1 : TimersInv (exec (handleEvent ev) w))
    by apply handleEvent_TimersInv, Htm.
  assert (Href1 : powerIntervalRef (exec (handleEvent ev) w) = Some id)
    by (rewrite handleEvent_ref by congruence; exact Href).
  unfold dispatch. set (w1 := exec (handleEvent ev) w) in *.
  destruct (gameState (react w1)) eqn:Hgs1;
    try (rewrite autoShoot_rest by (intros H; congruence); congruence).
  - (* charging: only the effect can release *)
    destruct (Z_lt_ge_dec (power (react w1)) 100) as [Hlt | Hge].
    + rewrite autoShoot_rest by (intros _; exact Hlt). congruence.
    + rewrite autoShoot_fires by assumption. intros _.
      apply handleTouchEnd_cancels; assumption.
  - (* shooting: the handler was the release *)
    rewrite autoShoot_rest by (intros H; congruence). intros _.
    subst w1. destruct ev as [ | | | tid].
    + rewrite exec_pressStart, handleTouchStart_other_phase in Hgs1
        by congruence.
      congruence.
    + rewrite exec_pressEnd. apply handleTouchEnd_cancels; assumption.
    + revert Hgs1. rewrite exec_clickReset.
      destruct_world w. js_unfold. discriminate.
    + rewrite exec_timerFires in Hgs1.
      destruct (fireTimer_frame tid w) as (_ & _ & [Hp | Hp]); congruence.
Qed.

(** C3, at the input where the code departs from it.  A press start
    followed by the score reset leaves the 50 ms interval pending: the
    phase is [waiting], yet the next tick raises the power to 2, and the
    ticks of that interval go on into the next round, where the ref names
    a second interval. *)
Theorem reset_while_charging_keeps_interval (rnd : nat -> Q) :
  let w := run [pressStart; clickReset] (initialWorld rnd) in
  let w' := dispatch (timerFires 1) w in
  let later := run [pressStart; timerFires 1] w' in
  gameState (react w) = waiting /\ power (react w) = 0 /\
  pending 1 w = Some {| timerId := 1; handler := chargeTick;
                        delay := 50; repeats := true |} /\
  gameState (react w') = waiting /\ power (react w') = 2 /\
  gameState (react later) = charging /\
  powerIntervalRef later = Some 2%nat /\
  power (react later) = 2.
Proof.
  vm_compute. repeat split; reflexivity.
Qed.

(** The same leak without touching the reset button while charging: the
    round-reset timeout left over from a round that the reset button
    cleared fires during the next round's charging; [resetGame] does not
    clear that round's interval (id 4), whose next tick raises the power
    in [waiting]. *)
Lemma stale_round_reset_keeps_interval :
  let w := dispatch (timerFires 3) nextRoundCharging in
  gameState (react w) = waiting /\ power (react w) = 0 /\
  pending 4 w = Some {| timerId := 4; handler := chargeTick;
                        delay := 50; repeats := true |} /\
  gameState (react (dispatch (timerFires 4) w)) = waiting /\
  power (react (dispatch (timerFires 4) w)) = 2.
Proof.
  vm_compute. repeat split; reflexivity.
Qed.

(** ** The chained timeouts after a release *)

(** C4 as stated fails: fired after the reset has taken the round back to
    [waiting], the overlay callback shows the overlay; fired during the
    next round's charging, the round-reset callback throws that round
    back to [waiting] at power 0. *)
Lemma stale_callbacks_are_not_noops :
  gameState (react hardResetMidSequence) = waiting /\
  pending 2 hardResetMidSequence
    = Some {| timerId := 2; handler := showOverlay;
              delay := 1000; repeats := false |} /\
  showResult (react hardResetMidSequence) = false /\
  showResult (react (dispatch (timerFires 2) hardResetMidSequence)) = true /\
  dispatch (timerFires 2) hardResetMidSequence <> hardResetMidSequence /\
  gameState (react nextRoundCharging) = charging /\
  power (react nextRoundCharging) = 2 /\
  pending 3 nextRoundCharging
    = Some {| timerId := 3; handler := roundReset;
              delay := 2000; repeats := false |} /\
  gameState (react (dispatch (timerFires 3) nextRoundCharging)) = waiting /\
  power (react (dispatch (timerFires 3) nextRoundCharging)) = 0 /\
  dispatch (timerFires 3) nextRoundCharging <> nextRoundCharging.
Proof.
  repeat split; try (vm_compute; reflexivity).
  - intros H. apply (f_equal (fun w => showResult (react w))) in H.
    vm_compute in H. discriminate H.
  - intros H. apply (f_equal (fun w => gameState (react w))) in H.
    vm_compute in H. discriminate H.
Qed.

(** The chain: a round-reset timeout enters the table only when a pending
    overlay timeout fires. *)
Lemma roundReset_only_after_overlay (ev : Event) (w : World) (t : Timer) :
  In t (timers (dispatch ev w)) -> handler t = roundReset ->
  In t (timers w) \/
  exists (id : nat) (t0 : Timer),
    ev = timerFires id /\ pending id w = Some t0 /\ handler t0 = showOverlay.
Proof.
  intros Hin Hh.
  assert (Hend : forall w1 : World,
    In t (timers (exec (handleTouchEnd (react w1)) w1)) -> In t (timers w1)).
  { intros w1 H1.
    destruct (gameState (react w1)) eqn:Hgs;
      try (rewrite handleTouchEnd_other_phase in H1 by congruence; exact H1).
    destruct (handleTouchEnd_timers w1 Hgs) as (Ht & _). rewrite Ht in H1.
    apply in_app_or in H1. destruct H1 as [H1 | [<- | []]].
    - destruct (powerIntervalRef w1) as [[|n]|]; auto.
      apply filter_In in H1. apply H1.
    - discriminate Hh. }
  assert (Hin1 : In t (timers (exec (handleEvent ev) w))).
  { unfold dispatch, autoShoot in Hin.
    destruct (_ && _); [apply Hend |]; exact Hin. }
  clear Hin. destruct ev as [ | | | id].
  - left. rewrite exec_pressStart in Hin1.
    destruct (gameState (react w)) eqn:Hgs;
      try (rewrite handleTouchStart_other_phase in Hin1 by congruence;
           exact Hin1).
    destruct (handleTouchStart_waiting w Hgs)
      as (_ & _ & _ & _ & _ & _ & _ & _ & _ & Ht).
    rewrite Ht in Hin1. apply in_app_or in Hin1.
    destruct Hin1 as [H1 | [<- | []]]; [exact H1 | discriminate Hh].
  - left. apply Hend. exact Hin1.
  - left. revert Hin1. rewrite exec_clickReset.
    destruct_world w. js_unfold. auto.
  - rewrite exec_timerFires in Hin1.
    destruct (pending id w) as [t0 |] eqn:Hp;
      [| rewrite fireTimer_not_pending in Hin1 by exact Hp; auto].
    destruct (handler t0) eqn:Hh0; [| right; eauto |]; left;
      revert Hin1; unfold pending in Hp; unfold exec, fireTimer;
      rewrite Hp, Hh0; destruct_world w; destruct (repeats t0); js_unfold;
      auto; intros H1; apply filter_In in H1; apply H1.
Qed.

(** The reset button cancels nothing: the timer table and the ref are
    those it found, in any world. *)
Lemma resetScore_keeps_timers (w : World) :
  timers (dispatch clickReset w) = timers w /\
  powerIntervalRef (dispatch clickReset w) = powerIntervalRef w /\
  nextTimerId (dispatch clickReset w) = nextTimerId w.
Proof.
  assert (Hd : dispatch clickReset w = exec resetScore w).
  { unfold dispatch. rewrite exec_clickReset. apply autoShoot_rest.
    intros H. revert H. destruct_world w. js_unfold. discriminate. }
  rewrite Hd. destruct_world w. js_unfold. repeat split.
Qed.

(** C4, amended.  The two timeouts are chained, unguarded and never
    cancelled.  In any reachable state the reset button leaves the timer
    table as it is, so whatever was pending stays pending; and whatever
    the phase, a pending overlay timeout (1000 ms) that fires sets
    [showResult], touches no other hook and leaves the 2000 ms
    round-reset timeout pending in its place; a pending round-reset
    timeout that fires puts the round at its defaults in [waiting] and
    keeps the session counters. *)
Theorem chained_callbacks_unguarded
  (rnd : nat -> Q) (evs : list Event) (id : nat) (t : Timer) :
  let w := run evs (initialWorld rnd) in
  let w' := dispatch (timerFires id) w in
  (timers (dispatch clickReset w) = timers w /\
   pending id (dispatch clickReset w) = pending id w) /\
  (pending id w = Some t ->
  (handler t = showOverlay ->
   delay t = 1000 /\
   react w' =
     {| gameState := gameState (react w);
        power := power (react w);
        score := score (react w);
        attempts := attempts (react w);
        shotResult := shotResult (react w);
        goalkeeperPosition := goalkeeperPosition (react w);
        ballPosition := ballPosition (react w);
        showResult := true |} /\
   timers w' =
     without id (timers w)
     ++ [{| timerId := nextTimerId w; handler := roundReset;
            delay := 2000; repeats := false |}]) /\
  (handler t = roundReset ->
   delay t = 2000 /\
   react w' =
     {| gameState := waiting;
        power := 0;
        score := score (react w);
        attempts := attempts (react w);
        shotResult := null;
        goalkeeperPosition := Some "center"%string;
        ballPosition := {| x := 50; y := 85 |}%Q;
        showResult := false |} /\
   timers w' = without id (timers w))).
Proof.
  intros w w'.
  split.
  { destruct (resetScore_keeps_timers w) as (Ht & _).
    split; [exact Ht |]. unfold pending. rewrite Ht. reflexivity. }
  intros Hp.
  assert (Hset : settled w) by apply run_settled, settled_initial.
  assert (Hsh : timerShape t).
  { assert (Htm : TimersInv w) by apply run_TimersInv, TimersInv_initial.
    destruct Htm as (Hts & _). unfold pending in Hp.
    apply find_some in Hp. destruct Hp as (Hin & _).
    rewrite Forall_forall in Hts. apply Hts, Hin. }
  unfold timerShape in Hsh. subst w'. unfold dispatch.
  rewrite exec_timerFires.
  split; intros Hh; rewrite Hh in Hsh; destruct Hsh as (Hd & Hr).
  - destruct (fireTimer_showOverlay id w t Hp Hh Hr) as (Hreact & Htimers).
    rewrite autoShoot_rest.
    + auto.
    + intros Hgs. rewrite Hreact in *. cbn [gameState power] in *.
      apply Hset, Hgs.
  - destruct (fireTimer_roundReset id w t Hp Hh Hr) as (Hreact & Htimers).
    rewrite autoShoot_rest.
    + auto.
    + intros Hgs. rewrite Hreact in Hgs. discriminate Hgs.
Qed.

Lemma chained_callbacks_unguarded_witness :
  showResult (react (dispatch (timerFires 2) hardResetMidSequence)) = true /\
  gameState (react (dispatch (timerFires 3) nextRoundCharging)) = waiting /\
  pending 2 hardResetMidSequence
    = pending 2 (run [pressStart; pressEnd] (initialWorld noRandom)).
Proof.
  split; [| split].
  - pose proof (chained_callbacks_unguarded noRandom
                  [pressStart; pressEnd; clickReset] 2%nat
                  {| timerId := 2; handler := showOverlay;
                     delay := 1000; repeats := false |}) as H.
    cbv zeta in H. destruct H as (_ & H).
    destruct H as (H & _); [vm_compute; reflexivity |].
    destruct H as (_ & Hreact & _); [reflexivity |].
    unfold hardResetMidSequence. rewrite Hreact. reflexivity.
  - pose proof (chained_callbacks_unguarded noRandom
                  ([pressStart; pressEnd; clickReset]
                   ++ [timerFires 2; pressStart; timerFires 4]) 3%nat
                  {| timerId := 3; handler := roundReset;
                     delay := 2000; repeats := false |}) as H.
    cbv zeta in H. destruct H as (_ & H).
    destruct H as (_ & H); [vm_compute; reflexivity |].
    destruct H as (_ & Hreact & _); [reflexivity |].
    unfold nextRoundCharging, hardResetMidSequence.
    rewrite <- run_app, Hreact. reflexivity.
  - pose proof (chained_callbacks_unguarded noRandom
                  [pressStart; pressEnd] 2%nat
                  {| timerId := 2; handler := showOverlay;
                     delay := 1000; repeats := false |}) as H.
    cbv zeta in H. destruct H as ((_ & Hkeep) & _).
    unfold hardResetMidSequence.
    change [pressStart; pressEnd; clickReset]
      with ([pressStart; pressEnd] ++ [clickReset]).
    rewrite run_snoc. exact Hkeep.
Defined.

(** ** The animator *)

(** An index drawn as [Math.floor(Math.random() * 3)] names one of the
    three positions. *)
Lemma keeper_choice (r : Q) :
  (0 <= r)%Q -> (r < 1)%Q ->
  let i := Qfloor (r * inject_Z (Z.of_nat (List.length positions))) in
  0 <= i < 3 /\
  (arrayGet positions i = Some "left"%string \/
   arrayGet positions i = Some "center"%string \/
   arrayGet positions i = Some "right"%string).
Proof.
  intros H0 H1 i.
  assert (Hi : 0 <= i < 3).
  { subst i. cbn [positions List.length Z.of_nat].
    change (inject_Z (Z.pos (Pos.of_succ_nat 2))) with 3%Q.
    pose proof (Qfloor_le (r * 3)) as Hlo.
    pose proof (Qlt_floor (r * 3)) as Hhi.
    split.
    - apply Z.lt_succ_r. rewrite <- Z.add_1_r, Zlt_Qlt.
      eapply Qle_lt_trans; [| exact Hhi]. change (inject_Z 0) with 0%Q. lra.
    - rewrite Zlt_Qlt. eapply Qle_lt_trans; [exact Hlo |].
      change (inject_Z 3) with 3%Q. lra. }
  split; [exact Hi |].
  assert (Hc : i = 0 \/ i = 1 \/ i = 2) by lia.
  destruct Hc as [-> | [-> | ->]]; cbn; auto.
Qed.

(** The ball after [handleTouchEnd]: the second value drawn decides the
    jitter; for a save the anchor is read from [goalkeeperPosition] of
    the render that created the handler, not from the position
    [animateGoalkeeper] has just chosen. *)
Lemma handleTouchEnd_ball (w : World) :
  gameState (react w) = charging ->
  let w' := exec (handleTouchEnd (react w)) w in
  let r := entropy w (S (drawn w)) in
  ballPosition (react w') =
    match calculateShotOutcome (power (react w)) with
    | goal => {| x := 50 + (r - (1#2)) * 30; y := 40 |}
    | save =>
        {| x := (if str_eqb (goalkeeperPosition (react w)) "left" then 25
                 else if str_eqb (goalkeeperPosition (react w)) "right"
                      then 75 else 50)
                + (r - (1#2)) * 10;
           y := 45 |}
    | _ => {| x := 50 + (r - (1#2)) * 40; y := 10 |}
    end%Q.
Proof.
  intros Hgs. unfold exec, handleTouchEnd. rewrite Hgs.
  cbn [GameState_eqb negb]. cbv zeta.
  destruct_world w. cbn [react power goalkeeperPosition entropy drawn].
  destruct (calculateShotOutcome power0);
    destruct powerIntervalRef0 as [[|id]|]; js_unfold; reflexivity.
Qed.

(** In a round the loop has reached, the render that releases still sees
    the goalkeeper at the centre, so a saved ball is aimed at x = 50
    whichever way the goalkeeper is sent; goal and miss are aimed as
    described. *)
Lemma release_ball_target (rnd : nat -> Q) (evs : list Event) :
  let w := run evs (initialWorld rnd) in
  let w' := dispatch pressEnd w in
  let r := entropy w (S (drawn w)) in
  gameState (react w) = charging ->
  ballPosition (react w') =
    match shotResult (react w') with
    | goal => {| x := 50 + (r - (1#2)) * 30; y := 40 |}
    | save => {| x := 50 + (r - (1#2)) * 10; y := 45 |}
    | _ => {| x := 50 + (r - (1#2)) * 40; y := 10 |}
    end%Q /\
  goalkeeperPosition (react w') =
    arrayGet positions
      (Qfloor (entropy w (drawn w)
               * inject_Z (Z.of_nat (List.length positions)))).
Proof.
  intros w w' r Hgs.
  assert (Hinv : Inv w) by apply run_Inv, Inv_initial.
  destruct Hinv as (Hrest & _).
  destruct (Hrest (or_intror Hgs)) as (Hgk & _).
  destruct (handleTouchEnd_charging w Hgs) as (Hs & _ & Hr & _ & _ & _ & Hk).
  pose proof (handleTouchEnd_ball w Hgs) as Hb. cbv zeta in Hb.
  rewrite Hgk in Hb. cbn [str_eqb String.eqb Ascii.eqb Bool.eqb] in Hb.
  subst w'. unfold dispatch. rewrite exec_pressEnd.
  rewrite autoShoot_rest by (intros H; congruence).
  rewrite Hr, Hb, Hk. split; reflexivity.
Qed.

(** C6, at the input where the code departs from it.  Released at power
    0 with the goalkeeper sent to the left, the shot is saved and the
    ball is aimed at x = 50, 25 away from the goalkeeper's anchor 25 and
    outside 25 +/- 5. *)
Theorem save_ball_ignores_chosen_keeper :
  let w := run [pressStart; pressEnd] (initialWorld diveLeft) in
  shotResult (react w) = save /\
  goalkeeperPosition (react w) = Some "left"%string /\
  y (ballPosition (react w)) = 45%Q /\
  (x (ballPosition (react w)) == 50)%Q /\
  ~ (25 - 5 <= x (ballPosition (react w)) <= 25 + 5)%Q.
Proof.
  cbv zeta. repeat split; try (vm_compute; reflexivity).
  intros (_ & H). vm_compute in H. apply H. reflexivity.
Qed.

(** ** Further properties of the game loop *)

Lemma handleTouchEnd_Coherent (w : World) :
  Coherent w -> Coherent (exec (handleTouchEnd (react w)) w).
Proof.
  intros H.
  destruct (gameState (react w)) eqn:Hgs;
    try (rewrite handleTouchEnd_other_phase by congruence; exact H).
  destruct (handleTouchEnd_charging w Hgs) as (Hs & _ & Hr & _).
  unfold Coherent. rewrite Hs, Hr. split; [discriminate |].
  split.
  - intros Hn. now apply calculateShotOutcome_not_null in Hn.
  - intros [Hc | Hc]; discriminate Hc.
Qed.

Lemma handleEvent_Coherent (ev : Event) (w : World) :
  Coherent w -> Coherent (exec (handleEvent ev) w).
Proof.
  destruct ev as [ | | | id].
  - rewrite exec_pressStart. intros H.
    destruct (gameState (react w)) eqn:Hgs;
      try (rewrite handleTouchStart_other_phase by congruence; exact H).
    destruct (handleTouchStart_waiting w Hgs) as (Hc & _ & Hr & _).
    unfold Coherent. rewrite Hc, Hr. split; [discriminate | tauto].
  - apply handleTouchEnd_Coherent.
  - intros _. rewrite exec_clickReset. unfold Coherent.
    destruct_world w. js_unfold. split; [discriminate | tauto].
  - rewrite exec_timerFires. unfold Coherent, exec, fireTimer.
    destruct (find _ (timers w)) as [[tid h d rep]|]; [| auto].
    destruct_world w. cbn [react gameState shotResult].
    intros H. destruct h, rep; js_unfold; auto;
      (split; [discriminate | tauto]).
Qed.

Lemma run_Coherent (evs : list Event) (w : World) :
  Coherent w -> Coherent (run evs w).
Proof.
  revert w. induction evs as [| ev evs IH]; intros w H; cbn.
  - exact H.
  - apply IH. unfold dispatch, autoShoot.
    destruct (_ && _).
    + apply handleTouchEnd_Coherent, handleEvent_Coherent, H.
    + apply handleEvent_Coherent, H.
Qed.

Lemma Coherent_initial (rnd : nat -> Q) : Coherent (initialWorld rnd).
Proof.
  unfold Coherent. cbn. split; [discriminate | tauto].
Qed.

(** X1. In every state the loop reaches the phase is never ['result'],
    and the stored result is [null] exactly in [waiting] and [charging]:
    a round in [shooting] always has a goal, a save or a miss. *)
Theorem phase_and_result_agree (rnd : nat -> Q) (evs : list Event) :
  let r := react (run evs (initialWorld rnd)) in
  gameState r <> result /\
  (shotResult r = null <-> gameState r = waiting \/ gameState r = charging) /\
  (gameState r = shooting <->
   shotResult r = goal \/ shotResult r = save \/ shotResult r = miss).
Proof.
  intros r.
  destruct (run_Coherent evs _ (Coherent_initial rnd)) as (Hnr & Hnull).
  fold r in Hnr, Hnull.
  split; [exact Hnr |]. split; [exact Hnull |].
  destruct (gameState r), (shotResult r); intuition congruence.
Qed.

(** A handler keeps the phase, or takes [waiting] to [charging] for a
    press start, or [charging] to [shooting] for a press end, or ends in
    [waiting]. *)
Lemma handleEvent_phase (ev : Event) (w : World) :
  let w1 := exec (handleEvent ev) w in
  gameState (react w1) = gameState (react w) \/
  (ev = pressStart /\ gameState (react w) = waiting /\
   gameState (react w1) = charging /\ power (react w1) = 0) \/
  (ev = pressEnd /\ gameState (react w) = charging /\
   gameState (react w1) = shooting) \/
  gameState (react w1) = waiting.
Proof.
  destruct ev as [ | | | id]; cbv zeta.
  - rewrite exec_pressStart.
    destruct (gameState (react w)) eqn:Hgs;
      try (rewrite handleTouchStart_other_phase by congruence; auto).
    destruct (handleTouchStart_waiting w Hgs) as (Hc & Hp & _).
    right; left. auto.
  - rewrite exec_pressEnd.
    destruct (gameState (react w)) eqn:Hgs;
      try (rewrite handleTouchEnd_other_phase by congruence; auto).
    destruct (handleTouchEnd_charging w Hgs) as (Hs & _).
    right; right; left. auto.
  - rewrite exec_clickReset. do 3 right.
    destruct_world w. js_unfold. reflexivity.
  - rewrite exec_timerFires.
    destruct (fireTimer_frame id w) as (_ & _ & [H | H]); auto.
Qed.


(** X2. The phases move along one cycle.  A turn out of a reachable
    state keeps the phase, or is a press start taking [waiting] to
    [charging], or takes [charging] to [shooting], or ends in [waiting];
    so [shooting] is entered from [charging] only and [charging] from
    [waiting] only. *)
Theorem phase_transitions
  (rnd : nat -> Q) (evs : list Event) (ev : Event) :
  let w := run evs (initialWorld rnd) in
  let w' := dispatch ev w in
  (gameState (react w') = gameState (react w) \/
   (ev = pressStart /\ gameState (react w) = waiting /\
    gameState (react w') = charging) \/
   (gameState (react w) = charging /\ gameState (react w') = shooting) \/
   gameState (react w') = waiting) /\
  (gameState (react w') = shooting ->
   gameState (react w) = shooting \/ gameState (react w) = charging) /\
  (gameState (react w') = charging ->
   gameState (react w) = charging \/
   (gameState (react w) = waiting /\ ev = pressStart)).
Proof.
  intros w w'.
  assert (Hmain :
    gameState (react w') = gameState (react w) \/
    (ev = pressStart /\ gameState (react w) = waiting /\
     gameState (react w') = charging) \/
    (gameState (react w) = charging /\ gameState (react w') = shooting) \/
    gameState (react w') = waiting).
  { subst w'. unfold dispatch.
    set (w1 := exec (handleEvent ev) w).
    destruct (Z_lt_ge_dec (power (react w1)) 100) as [Hlt | Hge].
    - rewrite autoShoot_rest by (intros _; exact Hlt).
      destruct (handleEvent_phase ev w) as [H | [H | [H | H]]];
        fold w1 in H; intuition.
    - destruct (gameState (react w1)) eqn:Hgs1;
        try (rewrite autoShoot_rest by (intros H; congruence);
             destruct (handleEvent_phase ev w) as [H | [H | [H | H]]];
             fold w1 in H; intuition congruence).
      rewrite autoShoot_fires by assumption.
      right; right; left. split.
      + apply (handleEvent_still_charging ev w);
          [exact Hgs1 | fold w1; lia].
      + apply (handleTouchEnd_charging w1 Hgs1). }
  split; [exact Hmain |].
  split; intros H'; destruct Hmain as [H | [H | [H | H]]];
    intuition congruence.
Qed.

Lemma phase_transitions_witness :
  let w := run (chargeTo 10) (initialWorld noRandom) in
  gameState (react (dispatch pressEnd w)) = shooting /\
  (gameState (react w) = shooting \/ gameState (react w) = charging).
Proof.
  cbv zeta. split; [vm_compute; reflexivity |].
  apply (proj1 (proj2 (phase_transitions noRandom (chargeTo 10) pressEnd))).
  vm_compute. reflexivity.
Defined.

(** X3. The session counters move only at a release or at the reset
    button: any other turn out of a reachable state leaves [score] and
    [attempts] as they were, and neither is ever negative. *)
Theorem counters_frame
  (rnd : nat -> Q) (evs : list Event) (ev : Event) :
  let w := run evs (initialWorld rnd) in
  let w' := dispatch ev w in
  0 <= score (react w) /\ 0 <= attempts (react w) /\
  (ev <> clickReset ->
   ~ (gameState (react w) = charging /\ gameState (react w') = shooting) ->
   score (react w') = score (react w) /\
   attempts (react w') = attempts (react w)).
Proof.
  intros w w'.
  destruct (run_Inv evs _ (Inv_initial rnd)) as (_ & Hsc & _). fold w in Hsc.
  split; [lia |]. split; [lia |].
  intros Hev Hrel. subst w'. unfold dispatch in *.
  set (w1 := exec (handleEvent ev) w) in *.
  assert (Hframe :
    (score (react w1) = score (react w) /\
     attempts (react w1) = attempts (react w)) \/
    (gameState (react w) = charging /\ gameState (react w1) = shooting)).
  { subst w1. destruct ev as [ | | | id].
    - left. rewrite exec_pressStart.
      destruct (gameState (react w)) eqn:Hgs;
        try (rewrite handleTouchStart_other_phase by congruence; auto).
      split; apply (handleTouchStart_waiting w Hgs).
    - rewrite exec_pressEnd.
      destruct (gameState (react w)) eqn:Hgs;
        try (rewrite handleTouchEnd_other_phase by congruence; auto).
      right. split; [reflexivity |].
      apply (handleTouchEnd_charging w Hgs).
    - now elim Hev.
    - left. rewrite exec_timerFires.
      destruct (fireTimer_frame id w) as (Hs & Ha & _). auto. }
  destruct (gameState (react w1)) eqn:Hgs1;
    try (rewrite autoShoot_rest in * by (intros H; congruence);
         destruct Hframe as [H | H]; [exact H | ]; elim Hrel;
         split; [apply H | congruence]).
  destruct (Z_lt_ge_dec (power (react w1)) 100) as [Hlt | Hge].
  - rewrite autoShoot_rest in * by (intros _; exact Hlt).
    destruct Hframe as [H | H]; [exact H | destruct H; congruence].
  - rewrite autoShoot_fires in * by assumption.
    elim Hrel. split.
    + apply (handleEvent_still_charging ev w); [exact Hgs1 | fold w1; lia].
    + apply (handleTouchEnd_charging w1 Hgs1).
Qed.

Lemma counters_frame_witness :
  let w := run (chargeTo 10 ++ [pressEnd]) (initialWorld noRandom) in
  score (react (dispatch (timerFires 2) w)) = score (react w) /\
  attempts (react (dispatch (timerFires 2) w)) = attempts (react w).
Proof.
  apply (counters_frame noRandom (chargeTo 10 ++ [pressEnd]) (timerFires 2)).
  - discriminate.
  - intros (H & _). vm_compute in H. discriminate H.
Defined.

(** ** Holding the press *)



























(** ** Where goalkeeper and ball can be *)

Lemma handleTouchEnd_entropy (w : World) :
  entropy (exec (handleTouchEnd (react w)) w) = entropy w.
Proof.
  unfold exec, handleTouchEnd. destruct_world w. cbn [react gameState power].
  destruct gameState0; cbn [GameState_eqb negb]; try reflexivity.
  destruct (calculateShotOutcome power0);
    destruct powerIntervalRef0 as [[|id]|]; js_unfold; reflexivity.
Qed.

Lemma handleEvent_entropy (ev : Event) (w : World) :
  entropy (exec (handleEvent ev) w) = entropy w.
Proof.
  destruct ev as [ | | | id].
  - rewrite exec_pressStart. unfold exec, handleTouchStart.
    destruct_world w. destruct gameState0; js_unfold; reflexivity.
  - apply handleTouchEnd_entropy.
  - rewrite exec_clickReset. destruct_world w. js_unfold. reflexivity.
  - rewrite exec_timerFires. unfold exec, fireTimer.
    destruct (find _ (timers w)) as [[tid h d rep]|]; [| reflexivity].
    destruct_world w. destruct h, rep; js_unfold; reflexivity.
Qed.

Lemma run_entropy (evs : list Event) (w : World) :
  entropy (run evs w) = entropy w.
Proof.
  revert w. induction evs as [| ev evs IH]; intros w; cbn; [reflexivity |].
  rewrite IH. unfold dispatch, autoShoot.
  destruct (_ && _); [rewrite handleTouchEnd_entropy |];
    apply handleEvent_entropy.
Qed.

(** Where the release handler sends goalkeeper and ball, for a round the
    loop has reached and a random source within [0, 1). *)
Lemma handleTouchEnd_target (w : World) :
  Inv w -> validSource (entropy w) ->
  gameState (react w) = charging ->
  let w' := exec (handleTouchEnd (react w)) w in
  let b := ballPosition (react w') in
  (goalkeeperPosition (react w') = Some "left"%string \/
   goalkeeperPosition (react w') = Some "center"%string \/
   goalkeeperPosition (react w') = Some "right"%string) /\
  match shotResult (react w') with
  | goal => y b = 40%Q /\ (35 <= x b <= 65)%Q
  | save => y b = 45%Q /\ (45 <= x b <= 55)%Q
  | miss => y b = 10%Q /\ (30 <= x b <= 70)%Q
  | null => False
  end.
Proof.
  intros (Hrest & _) Hsrc Hgs w' b.
  destruct (Hrest (or_intror Hgs)) as (Hgk & _).
  destruct (handleTouchEnd_charging w Hgs) as (_ & _ & Hr & _ & _ & _ & Hk).
  pose proof (handleTouchEnd_ball w Hgs) as Hb. cbv zeta in Hb.
  rewrite Hgk in Hb. cbn [str_eqb String.eqb Ascii.eqb Bool.eqb] in Hb.
  fold w' in Hr, Hk, Hb. split.
  - rewrite Hk.
    apply (keeper_choice (entropy w (drawn w))); apply Hsrc.
  - subst b. rewrite Hr, Hb.
    destruct (Hsrc (S (drawn w))) as (H0 & H1).
    pose proof (calculateShotOutcome_not_null (power (react w))) as Hnn.
    destruct (calculateShotOutcome (power (react w))); cbn [x y];
      try (split; [reflexivity | lra]).
    now elim Hnn.
Qed.

Lemma InField_defaults (w : World) :
  goalkeeperPosition (react w) = Some "center"%string ->
  ballPosition (react w) = defaultBall ->
  InField w.
Proof.
  intros Hk Hb. unfold InField. rewrite Hk, Hb. cbn [x y defaultBall].
  split; [auto |]. split; lra.
Qed.

Lemma InField_same (w w1 : World) :
  goalkeeperPosition (react w1) = goalkeeperPosition (react w) ->
  ballPosition (react w1) = ballPosition (react w) ->
  InField w -> InField w1.
Proof.
  intros Hk Hb. unfold InField. rewrite Hk, Hb. auto.
Qed.

Lemma handleTouchEnd_InField (w : World) :
  Inv w -> validSource (entropy w) -> InField w ->
  InField (exec (handleTouchEnd (react w)) w).
Proof.
  intros Hinv Hsrc Hf.
  destruct (gameState (react w)) eqn:Hgs;
    try (rewrite handleTouchEnd_other_phase by congruence; exact Hf).
  destruct (handleTouchEnd_target w Hinv Hsrc Hgs) as (Hk & Hb).
  unfold InField. split; [exact Hk |].
  destruct (shotResult _); try contradiction;
    destruct Hb as (Hy & Hx); rewrite Hy; split; lra.
Qed.

Lemma handleEvent_InField (ev : Event) (w : World) :
  Inv w -> validSource (entropy w) -> InField w ->
  InField (exec (handleEvent ev) w).
Proof.
  intros Hinv Hsrc Hf.
  destruct ev as [ | | | id].
  - rewrite exec_pressStart.
    destruct (gameState (react w)) eqn:Hgs;
      try (rewrite handleTouchStart_other_phase by congruence; exact Hf).
    apply (InField_same w); [| | exact Hf];
      apply (handleTouchStart_waiting w Hgs).
  - apply handleTouchEnd_InField; assumption.
  - rewrite exec_clickReset. apply InField_defaults;
      destruct_world w; js_unfold; reflexivity.
  - rewrite exec_timerFires. unfold exec, fireTimer.
    destruct (find _ (timers w)) as [[tid h d rep]|]; [| exact Hf].
    destruct h;
      try (apply InField_defaults;
           destruct_world w; destruct rep; js_unfold; reflexivity);
      (apply (InField_same w); [| | exact Hf];
       destruct_world w; destruct rep; js_unfold; reflexivity).
Qed.

Lemma run_InField (evs : list Event) (w : World) :
  Inv w -> validSource (entropy w) -> InField w -> InField (run evs w).
Proof.
  revert w. induction evs as [| ev evs IH]; intros w Hinv Hsrc Hf; cbn.
  - exact Hf.
  - assert (Hinv1 : Inv (exec (handleEvent ev) w))
      by apply handleEvent_Inv, Hinv.
    assert (Hsrc1 : validSource (entropy (exec (handleEvent ev) w)))
      by (rewrite handleEvent_entropy; exact Hsrc).
    assert (Hf1 : InField (exec (handleEvent ev) w))
      by (apply handleEvent_InField; assumption).
    apply IH.
    + apply dispatch_Inv, Hinv.
    + rewrite <- (run_entropy [ev] w) in Hsrc. exact Hsrc.
    + unfold dispatch, autoShoot.
      destruct (_ && _); [apply handleTouchEnd_InField |]; assumption.
Qed.

(** X8. With [Math.random()] within [0, 1), in every state the loop
    reaches the goalkeeper is in one of the three slots ['left'],
    ['center'], ['right'] (never [undefined]) and the ball is on the
    pitch, with x within [30, 70] and y within [10, 85]. *)
Theorem keeper_and_ball_stay_in_field (rnd : nat -> Q) (evs : list Event) :
  validSource rnd ->
  let r := react (run evs (initialWorld rnd)) in
  (goalkeeperPosition r = Some "left"%string \/
   goalkeeperPosition r = Some "center"%string \/
   goalkeeperPosition r = Some "right"%string) /\
  (30 <= x (ballPosition r) <= 70)%Q /\
  (10 <= y (ballPosition r) <= 85)%Q.
Proof.
  intros Hsrc r.
  apply (run_InField evs (initialWorld rnd)).
  - apply Inv_initial.
  - exact Hsrc.
  - apply InField_defaults; reflexivity.
Qed.

Lemma validSource_diveLeft : validSource diveLeft.
Proof.
  intros [| n]; cbn; split; (discriminate || reflexivity).
Qed.

Lemma keeper_and_ball_stay_in_field_witness :
  let r := react (run (chargeTo 50) (initialWorld diveLeft)) in
  (30 <= x (ballPosition r) <= 70)%Q /\
  (10 <= y (ballPosition r) <= 85)%Q.
Proof.
  apply (keeper_and_ball_stay_in_field diveLeft (chargeTo 50)).
  apply validSource_diveLeft.
Defined.

(** A turn that takes a settled charging round to [shooting] is the
    release handler, run on the state the turn started in or on the
    state its own handler left. *)
Lemma release_turn (ev : Event) (w : World) :
  settled w ->
  gameState (react w) = charging ->
  gameState (react (dispatch ev w)) = shooting ->
  exists w1 : World,
    (w1 = w \/ w1 = exec (handleEvent ev) w) /\
    gameState (react w1) = charging /\
    dispatch ev w = exec (handleTouchEnd (react w1)) w1.
Proof.
  intros Hset Hgs. unfold dispatch.
  set (w1 := exec (handleEvent ev) w).
  destruct (gameState (react w1)) eqn:Hgs1;
    try (rewrite autoShoot_rest by (intros H; congruence); congruence).
  - destruct (Z_lt_ge_dec (power (react w1)) 100) as [Hlt | Hge].
    + rewrite autoShoot_rest by (intros _; exact Hlt). congruence.
    + rewrite autoShoot_fires by assumption. intros _.
      exists w1. auto.
  - rewrite autoShoot_rest by (intros H; congruence). intros _.
    exists w. split; [auto |]. split; [exact Hgs |].
    subst w1. destruct ev as [ | | | tid].
    + rewrite exec_pressStart, handleTouchStart_other_phase in Hgs1
        by congruence.
      congruence.
    + apply exec_pressEnd.
    + revert Hgs1. rewrite exec_clickReset.
      destruct_world w. js_unfold. discriminate.
    + rewrite exec_timerFires in Hgs1.
      destruct (fireTimer_frame tid w) as (_ & _ & [Hp | Hp]); congruence.
Qed.

(** X9. Where a shot lands.  With [Math.random()] within [0, 1), every
    release out of a reachable charging round, explicit or automatic,
    sends the ball to y = 40 and x within [35, 65] for a goal, to y = 45
    and x within [45, 55] for a save, and to y = 10 and x within [30, 70]
    for a miss. *)
Theorem ball_target_by_outcome
  (rnd : nat -> Q) (evs : list Event) (ev : Event) :
  validSource rnd ->
  let w := run evs (initialWorld rnd) in
  let w' := dispatch ev w in
  let b := ballPosition (react w') in
  gameState (react w) = charging ->
  gameState (react w') = shooting ->
  (shotResult (react w') = goal -> y b = 40%Q /\ (35 <= x b <= 65)%Q) /\
  (shotResult (react w') = save -> y b = 45%Q /\ (45 <= x b <= 55)%Q) /\
  (shotResult (react w') = miss -> y b = 10%Q /\ (30 <= x b <= 70)%Q).
Proof.
  intros Hsrc w w' b Hgs Hsh.
  assert (Hinv : Inv w) by apply run_Inv, Inv_initial.
  assert (Hset : settled w) by apply run_settled, settled_initial.
  assert (Hent : validSource (entropy w))
    by (unfold w; rewrite run_entropy; exact Hsrc).
  destruct (release_turn ev w Hset Hgs Hsh) as (w1 & Hw1 & Hgs1 & Hd).
  assert (Hinv1 : Inv w1)
    by (destruct Hw1 as [-> | ->]; [| apply handleEvent_Inv]; exact Hinv).
  assert (Hent1 : validSource (entropy w1))
    by (destruct Hw1 as [-> | ->]; [| rewrite handleEvent_entropy];
        exact Hent).
  destruct (handleTouchEnd_target w1 Hinv1 Hent1 Hgs1) as (_ & Ht).
  subst b w'. rewrite Hd.
  destruct (shotResult _); try contradiction;
    (split; [| split]); intros Hres; try discriminate Hres; exact Ht.
Qed.

Lemma ball_target_by_outcome_witness :
  let w := run (chargeTo 36) (initialWorld diveLeft) in
  let b := ballPosition (react (dispatch pressEnd w)) in
  shotResult (react (dispatch pressEnd w)) = goal /\
  y b = 40%Q /\ (35 <= x b <= 65)%Q.
Proof.
  cbv zeta. split; [vm_compute; reflexivity |].
  apply (ball_target_by_outcome diveLeft (chargeTo 36) pressEnd).
  - apply validSource_diveLeft.
  - vm_compute. reflexivity.
  - vm_compute. reflexivity.
  - vm_compute. reflexivity.
Defined.

(** ** A held press always ends *)










(** ** The view *)

(** X11. The power bar tells the outcome.  The fill is green exactly at
    the powers a release turns into a goal, red exactly where it is
    saved, yellow-orange exactly where it misses, and the perfect zone
    indicator (from [left] to [left + width]) spans exactly the goal
    powers. *)
Theorem fill_colour_predicts_outcome (r : Render) :
  (powerFillClass r = "bg-gradient-to-r from-green-400 to-green-500"%string
   <-> calculateShotOutcome (power r) = goal) /\
  (powerFillClass r = "bg-gradient-to-r from-red-400 to-red-500"%string
   <-> calculateShotOutcome (power r) = save) /\
  (powerFillClass r = "bg-gradient-to-r from-yellow-400 to-orange-500"%string
   <-> calculateShotOutcome (power r) = miss) /\
  (perfectZoneLeft <= power r <= perfectZoneLeft + perfectZoneWidth
   <-> calculateShotOutcome (power r) = goal).
Proof.
  unfold powerFillClass, calculateShotOutcome, perfectZoneLeft,
    perfectZoneWidth, perfectZoneStart, perfectZoneEnd.
  destruct (Z.geb_spec (power r) 70), (Z.leb_spec (power r) 85),
    (Z.ltb_spec (power r) 70); cbn [andb];
    repeat split; intros; try reflexivity; try lia; congruence.
Qed.

(** X12. The texts.  In every state the loop reaches exactly one
    instruction line is rendered; while shooting the result card has
    exactly one title; in [waiting] and [charging] it has none, so a card
    made visible there is blank. *)
Theorem one_instruction_one_title (rnd : nat -> Q) (evs : list Event) :
  let r := react (run evs (initialWorld rnd)) in
  List.length (instructions r) = 1%nat /\
  (gameState r = shooting -> List.length (resultTitle r) = 1%nat) /\
  (gameState r = waiting \/ gameState r = charging -> resultTitle r = []) /\
  (resultCard r = None <-> showResult r = false).
Proof.
  intros r.
  destruct (run_Coherent evs _ (Coherent_initial rnd)) as (Hnr & Hnull).
  fold r in Hnr, Hnull.
  split; [| split; [| split]].
  - unfold instructions. destruct (gameState r); try reflexivity.
    now elim Hnr.
  - intros Hs. unfold resultTitle.
    destruct (shotResult r); try reflexivity.
    destruct (proj1 Hnull eq_refl); congruence.
  - intros Hw. unfold resultTitle.
    rewrite (proj2 Hnull Hw). reflexivity.
  - unfold resultCard. destruct (showResult r); split; congruence.
Qed.

Lemma one_instruction_one_title_witness :
  let r := react (run (chargeTo 36 ++ [pressEnd; timerFires 2])
                      (initialWorld noRandom)) in
  resultCard r = Some (resultTitle r) /\
  List.length (resultTitle r) = 1%nat.
Proof.
  cbv zeta. split; [vm_compute; reflexivity |].
  apply (proj1 (proj2 (one_instruction_one_title noRandom
                         (chargeTo 36 ++ [pressEnd; timerFires 2])))).
  vm_compute. reflexivity.
Defined.

Lemma Math_round_bounds (q : Q) (lo hi : Z) :
  (inject_Z lo <= q)%Q -> (q <= inject_Z hi)%Q ->
  lo <= Math_round q <= hi.
Proof.
  intros Hlo Hhi. unfold Math_round. split.
  - rewrite <- (Qfloor_Z lo). apply Qfloor_resp_le. lra.
  - apply Z.lt_succ_r. rewrite <- Z.add_1_r, Zlt_Qlt.
    eapply Qle_lt_trans; [apply Qfloor_le |].
    rewrite inject_Z_plus. change (inject_Z 1) with 1%Q. lra.
Qed.

(** X13. The success rate of the footer (with exact division) is a
    whole percentage between 0 and 100 in every state the loop reaches;
    it is 0 without attempts and without goals, and 100 when every
    attempt was a goal. *)
Theorem success_rate_is_a_percentage (rnd : nat -> Q) (evs : list Event) :
  let r := react (run evs (initialWorld rnd)) in
  0 <= successRate r <= 100 /\
  (attempts r = 0 -> successRate r = 0) /\
  (score r = 0 -> successRate r = 0) /\
  (0 < attempts r -> score r = attempts r -> successRate r = 100).
Proof.
  intros r.
  destruct (run_Inv evs _ (Inv_initial rnd)) as (_ & Hsc & _).
  fold r in Hsc.
  assert (Hq : 0 < attempts r ->
    (inject_Z 0 <= inject_Z (score r) / inject_Z (attempts r) * 100)%Q /\
    (inject_Z (score r) / inject_Z (attempts r) * 100 <= inject_Z 100)%Q /\
    (score r = 0 ->
     (inject_Z (score r) / inject_Z (attempts r) * 100 <= inject_Z 0)%Q) /\
    (score r = attempts r ->
     (inject_Z 100 <= inject_Z (score r) / inject_Z (attempts r) * 100)%Q)).
  { intros Ha.
    assert (Hapos : (0 < inject_Z (attempts r))%Q)
      by (change 0%Q with (inject_Z 0); rewrite <- Zlt_Qlt; exact Ha).
    assert (H0 : (0 <= inject_Z (score r) / inject_Z (attempts r))%Q).
    { apply Qle_shift_div_l; [exact Hapos |].
      rewrite Qmult_0_l. change 0%Q with (inject_Z 0).
      rewrite <- Zle_Qle. lia. }
    assert (H1 : (inject_Z (score r) / inject_Z (attempts r) <= 1)%Q).
    { apply Qle_shift_div_r; [exact Hapos |].
      rewrite Qmult_1_l, <- Zle_Qle. lia. }
    change (inject_Z 0) with 0%Q. change (inject_Z 100) with 100%Q.
    split; [lra |]. split; [lra |]. split.
    - intros Hz.
      assert (H2 : (inject_Z (score r) / inject_Z (attempts r) <= 0)%Q).
      { apply Qle_shift_div_r; [exact Hapos |].
        rewrite Qmult_0_l. change 0%Q with (inject_Z 0).
        rewrite <- Zle_Qle. lia. }
      lra.
    - intros He.
      assert (H2 : (1 <= inject_Z (score r) / inject_Z (attempts r))%Q).
      { apply Qle_shift_div_l; [exact Hapos |].
        rewrite Qmult_1_l, <- Zle_Qle. lia. }
      lra. }
  unfold successRate.
  destruct (Z.gtb_spec (attempts r) 0) as [Ha | Ha].
  - destruct (Hq Ha) as (H0 & H100 & Hzero & Hfull).
    split; [apply Math_round_bounds; assumption |].
    split; [lia |]. split.
    + intros Hz.
      pose proof (Math_round_bounds _ 0 0 H0 (Hzero Hz)). lia.
    + intros _ He.
      pose proof (Math_round_bounds _ 100 100 (Hfull He) H100). lia.
  - repeat split; intros; (reflexivity || lia).
Qed.

Lemma success_rate_is_a_percentage_witness :
  let w := run (playRound 38 (initialWorld noRandom))
               (initialWorld noRandom) in
  score (react w) = 1 /\ attempts (react w) = 1 /\
  successRate (react w) = 100.
Proof.
  cbv zeta. split; [vm_compute; reflexivity |].
  split; [vm_compute; reflexivity |].
  apply (success_rate_is_a_percentage noRandom
           (playRound 38 (initialWorld noRandom))).
  - vm_compute. reflexivity.
  - vm_compute. reflexivity.
Defined.

(** X14. Every timer pending in a state the loop reaches is one of
    three: the repeating 50 ms charging tick, the one-shot 1000 ms
    overlay timeout, or the one-shot 2000 ms round-reset timeout; its id
    was handed out before, and so was the id the ref holds. *)
Theorem pending_timers_are_the_three_kinds
  (rnd : nat -> Q) (evs : list Event) (t : Timer) :
  let w := run evs (initialWorld rnd) in
  (In t (timers w) ->
   ((handler t = chargeTick /\ delay t = 50 /\ repeats t = true) \/
    (handler t = showOverlay /\ delay t = 1000 /\ repeats t = false) \/
    (handler t = roundReset /\ delay t = 2000 /\ repeats t = false)) /\
   (1 <= timerId t < nextTimerId w)%nat) /\
  (forall id : nat,
     powerIntervalRef w = Some id -> (1 <= id < nextTimerId w)%nat).
Proof.
  intros w.
  destruct (run_TimersInv evs _ (TimersInv_initial rnd)) as (Hts & Href & _).
  fold w in Hts, Href. split.
  - intros Hin. rewrite Forall_forall in Hts.
    destruct (Hts t Hin) as (Hsh & Hid). split; [| exact Hid].
    unfold timerShape in Hsh. destruct (handler t); tauto.
  - intros id Hid. rewrite Hid in Href. exact Href.
Qed.

Lemma pending_timers_are_the_three_kinds_witness :
  let w := run (chargeTo 3 ++ [pressEnd]) (initialWorld noRandom) in
  let t := {| timerId := 2; handler := showOverlay;
              delay := 1000; repeats := false |} in
  In t (timers w) /\ (1 <= timerId t < nextTimerId w)%nat.
Proof.
  cbv zeta.
  assert (Hin : In {| timerId := 2; handler := showOverlay;
                      delay := 1000; repeats := false |}
                   (timers (run (chargeTo 3 ++ [pressEnd])
                                (initialWorld noRandom))))
    by (vm_compute; auto).
  split; [exact Hin |].
  apply (proj1 (pending_timers_are_the_three_kinds noRandom
                  (chargeTo 3 ++ [pressEnd])
                  {| timerId := 2; handler := showOverlay;
                     delay := 1000; repeats := false |})).
  exact Hin.
Defined.
